(** * Archive-name decoding and the hand-written TAR scan

    A shallow embedding of [smartDecodeFileName] and [extractTar] of the
    online unzip tool, together with the part of the browser platform
    (the [TextDecoder] of the Encoding standard, [parseInt], [String.trim],
    [DataView.getUint8], [ArrayBuffer.slice]) that these two functions call.
    The second half covers the rest of the script that does not touch the
    page: the checks of [handleFiles] and [handleImageCompressFiles], the
    dispatch of [extractArchive], [extractZip] and [extractGzip] over the
    two libraries, the lookup tables of [getMimeType] and [getFileIcon],
    and the names given to results.

    Conventions.
    - A byte buffer ([ArrayBuffer], [Uint8Array]) is a [list Byte.byte].
    - A JavaScript string is the list of its UTF-16 code units, each a [Z].
    - JavaScript numbers that occur here are integers far below 2^53 (a size
      field has at most twelve octal digits), so they are modelled by [Z];
      [NaN] is a separate constructor.
    - A call that may throw returns a [completion].
    - The plain object [extractedFiles], used as a dictionary, is the
      finite map of its own properties, which is what [Object.keys] reads.
      The assignment [o[k] = v] is [assign o k v]: it creates or overwrites
      the own property [k], except for the name [__proto__], where it runs
      the setter inherited from [Object.prototype] and leaves the own
      properties as they are. *)

From Stdlib Require Import ZArith List Lia Bool String Ascii QArith.
From Stdlib Require Strings.Byte.
From stdpp Require Import base option list gmap strings.
Import ListNotations.
Local Open Scope Z_scope.

(* ===================================================================== *)
(** * JavaScript values and built-ins used by the two functions          *)
(* ===================================================================== *)

Module Js.

(** UTF-16 code units. *)
Abbreviation jsstring := (list Z) (only parsing).

(** The code units of an ASCII literal. *)
Definition lit (s : string) : jsstring :=
  map (fun a => Z.of_N (N_of_ascii a)) (list_ascii_of_string s).

(** The numeric value of a byte, as [view.getUint8] or [bytes[i]] gives it. *)
Definition u8 (b : Byte.byte) : Z := Z.of_N (Byte.to_N b).

(** Exceptions that can be raised on the paths modelled here. *)
Inductive exn :=
| RangeError
| TypeError
| Error (message : string).

(** Result of evaluating a call: a value, or a thrown exception. *)
Inductive completion (A : Type) :=
| Normal (a : A)
| Throw (e : exn).
Arguments Normal {A} a.
Arguments Throw {A} e.

#[export] Instance completion_ret : MRet completion := fun A a => Normal a.
#[export] Instance completion_bind : MBind completion := fun A B f m =>
  match m with
  | Normal a => f a
  | Throw e => Throw e
  end.
#[export] Instance completion_fmap : FMap completion := fun A B f m =>
  match m with
  | Normal a => Normal (f a)
  | Throw e => Throw e
  end.

(** [try { body } catch (e) { handler e }]. *)
Definition try_catch {A} (body : completion A) (handler : exn -> completion A)
  : completion A :=
  match body with
  | Normal a => Normal a
  | Throw e => handler e
  end.

(** Numbers that [parseInt] can produce. *)
Inductive number :=
| NaN
| Num (z : Z).

(** [n || 0] for a number [n]: [NaN] and zero are falsy. *)
Definition or_zero (n : number) : Z :=
  match n with
  | NaN => 0
  | Num z => z
  end.

(** White space and line terminators, the code units that
    [String.prototype.trim] and [parseInt] strip. *)
Definition is_whitespace (c : Z) : bool :=
  (c =? 0x09) || (c =? 0x0A) || (c =? 0x0B) || (c =? 0x0C) || (c =? 0x0D)
  || (c =? 0x20) || (c =? 0xA0) || (c =? 0x1680)
  || ((0x2000 <=? c) && (c <=? 0x200A))
  || (c =? 0x2028) || (c =? 0x2029) || (c =? 0x202F) || (c =? 0x205F)
  || (c =? 0x3000) || (c =? 0xFEFF).

Fixpoint trimStart (s : jsstring) : jsstring :=
  match s with
  | c :: rest => if is_whitespace c then trimStart rest else s
  | [] => []
  end.

Definition trimEnd (s : jsstring) : jsstring := rev (trimStart (rev s)).

(** [s.trim()]. *)
Definition trim (s : jsstring) : jsstring := trimEnd (trimStart s).

(** Value of a code unit read as a digit: [0-9], [a-z], [A-Z]. *)
Definition digit_value (c : Z) : option Z :=
  if (48 <=? c) && (c <=? 57) then Some (c - 48)
  else if (97 <=? c) && (c <=? 122) then Some (c - 97 + 10)
  else if (65 <=? c) && (c <=? 90) then Some (c - 65 + 10)
  else None.

(** The longest prefix of radix-[R] digits, as digit values. *)
Fixpoint radix_digits (R : Z) (s : jsstring) : list Z :=
  match s with
  | c :: rest =>
      match digit_value c with
      | Some d => if d <? R then d :: radix_digits R rest else []
      | None => []
      end
  | [] => []
  end.

(** The integer denoted by a list of digit values, most significant first. *)
Definition digits_value (R : Z) (ds : list Z) : Z :=
  fold_left (fun acc d => acc * R + d) ds 0.

(** [parseInt(s, R)] for an explicit radix [R]. The result is exact: the
    strings parsed here have at most twelve digits. *)
Definition parseInt (s : jsstring) (R : Z) : number :=
  let S1 := trimStart s in
  let sign := match S1 with
              | c :: _ => if c =? 45 then -1 else 1
              | [] => 1
              end in
  let S2 := match S1 with
            | c :: rest => if (c =? 43) || (c =? 45) then rest else S1
            | [] => []
            end in
  if (R <? 2) || (36 <? R) then NaN
  else
    let S3 := if R =? 16 then
                match S2 with
                | c0 :: cx :: rest =>
                    if (c0 =? 48) && ((cx =? 120) || (cx =? 88)) then rest
                    else S2
                | _ => S2
                end
              else S2 in
    match radix_digits R S3 with
    | [] => NaN
    | ds => Num (sign * digits_value R ds)
    end.

(** [Math.ceil(a / b)] for integers [a] and positive [b]. *)
Definition ceil_div (a b : Z) : Z := - ((- a) / b).

(** [s.endsWith(String.fromCharCode(c))]. *)
Definition endsWith (s : jsstring) (c : Z) : bool :=
  match rev s with
  | last :: _ => last =? c
  | [] => false
  end.

(** [s.split(String.fromCharCode(sep)).pop()]: what follows the last
    separator. *)
Fixpoint split_pop_aux (sep : Z) (s acc : jsstring) : jsstring :=
  match s with
  | [] => rev acc
  | c :: rest =>
      if c =? sep then split_pop_aux sep rest []
      else split_pop_aux sep rest (c :: acc)
  end.

Definition split_pop (sep : Z) (s : jsstring) : jsstring :=
  split_pop_aux sep s [].

(** [(s.match(/c/g) || []).length]: occurrences of one code unit. *)
Definition count_matches (c : Z) (s : jsstring) : Z :=
  Z.of_nat (List.length (filter (fun x => bool_decide (x = c)) s)).

(** [count / len < 0.1] on JavaScript numbers, for a count and a string
    length. [0 / 0] is [NaN], and every comparison with [NaN] is false.
    For a positive length below 2^53 the rounded quotient is below the
    double nearest to one tenth exactly when the true quotient is below
    one tenth. *)
Definition ratio_below_tenth (count len : Z) : bool :=
  if len =? 0 then false else 10 * count <? len.

(** [buffer.byteLength]. *)
Definition byteLength (buffer : list Byte.byte) : Z :=
  Z.of_nat (List.length buffer).

(** [view.getUint8(index)]: a [RangeError] outside the buffer. *)
Definition getUint8 (buffer : list Byte.byte) (index : Z)
  : completion Byte.byte :=
  if 0 <=? index then
    match buffer !! Z.to_nat index with
    | Some b => Normal b
    | None => Throw RangeError
    end
  else Throw RangeError.

(** [buffer.slice(first, final)] for integer arguments: negative arguments
    count from the end, both ends are clamped to the buffer. *)
Definition relative_index (len k : Z) : Z :=
  if k <? 0 then Z.max (len + k) 0 else Z.min k len.

Definition slice (buffer : list Byte.byte) (first final : Z)
  : list Byte.byte :=
  let len := byteLength buffer in
  let from := relative_index len first in
  let to := relative_index len final in
  take (Z.to_nat (Z.max (to - from) 0)) (drop (Z.to_nat from) buffer).

(** [Object.keys(o).length]. *)
Definition keys_length {V} (o : gmap jsstring V) : Z := Z.of_nat (size o).

(** [o[k] = v] on a plain object whose own properties are [o], for an
    object [v]. The name [__proto__] is an accessor of [Object.prototype]:
    assigning to it replaces the prototype of the object and creates no own
    property. *)
Definition assign {V} (o : gmap jsstring V) (k : jsstring) (v : V)
  : gmap jsstring V :=
  if bool_decide (k = lit "__proto__") then o else <[k := v]> o.

End Js.
Export Js.

(* ===================================================================== *)
(** * The platform's [TextDecoder]                                        *)
(* ===================================================================== *)

(** [new TextDecoder(label, { fatal }).decode(input)] as the Encoding
    standard defines it. The single-byte decoder and the UTF-8 decoder are
    written out. The decoders of the legacy multi-byte encodings depend on
    index tables of several thousand entries; they are a parameter. *)
Module Encoding.

Inductive encoding :=
| UTF_8
| windows_1252
| GBK
| Big5
| Shift_JIS.

(** The labels this program passes to [TextDecoder] and the encodings they
    name. Both [ascii] and [latin1] are labels of windows-1252, and
    [gb2312] is a label of GBK. Another label is a [RangeError]. *)
Definition get_encoding (label : string) : option encoding :=
  if String.eqb label "utf-8" then Some UTF_8
  else if String.eqb label "ascii" then Some windows_1252
  else if String.eqb label "latin1" then Some windows_1252
  else if String.eqb label "gbk" then Some GBK
  else if String.eqb label "gb2312" then Some GBK
  else if String.eqb label "big5" then Some Big5
  else if String.eqb label "shift-jis" then Some Shift_JIS
  else None.

(** Index windows-1252, pointers 0 to 31 (bytes 0x80 to 0x9F). The
    pointers 32 to 127 map byte [b] to code point [b]. *)
Definition index_windows_1252_low : list Z :=
  [ 0x20AC; 0x0081; 0x201A; 0x0192; 0x201E; 0x2026; 0x2020; 0x2021;
    0x02C6; 0x2030; 0x0160; 0x2039; 0x0152; 0x008D; 0x017D; 0x008F;
    0x0090; 0x2018; 0x2019; 0x201C; 0x201D; 0x2022; 0x2013; 0x2014;
    0x02DC; 0x2122; 0x0161; 0x203A; 0x0153; 0x009D; 0x017E; 0x0178 ].

(** Single-byte decoder: one code point for every byte. *)
Definition windows_1252_code_point (b : Z) : Z :=
  if b <=? 0x7F then b
  else if b <=? 0x9F then nth (Z.to_nat (b - 0x80)) index_windows_1252_low b
  else b.

Definition windows_1252_decode (input : list Byte.byte) : jsstring :=
  (fun b => windows_1252_code_point (u8 b)) <$> input.

(** State of the UTF-8 decoder. *)
Record utf8_decoder := {
  code_point : Z;
  bytes_seen : Z;
  bytes_needed : Z;
  lower_boundary : Z;
  upper_boundary : Z
}.

Definition utf8_initial : utf8_decoder :=
  {| code_point := 0; bytes_seen := 0; bytes_needed := 0;
     lower_boundary := 0x80; upper_boundary := 0xBF |}.

(** What a decoder's handler returns for one byte. [Res_error_restore]
    is an error after which the byte is put back on the input queue. *)
Inductive result :=
| Res_continue
| Res_code_point (c : Z)
| Res_error
| Res_error_restore.

Definition utf8_lead (needed cp lower upper : Z) : utf8_decoder :=
  {| code_point := cp; bytes_seen := 0; bytes_needed := needed;
     lower_boundary := lower; upper_boundary := upper |}.

(** The UTF-8 decoder's handler for a byte. *)
Definition utf8_handler (st : utf8_decoder) (b : Z) : utf8_decoder * result :=
  if bytes_needed st =? 0 then
    if b <=? 0x7F then (st, Res_code_point b)
    else if (0xC2 <=? b) && (b <=? 0xDF) then
      (utf8_lead 1 (Z.land b 0x1F) (lower_boundary st) (upper_boundary st),
       Res_continue)
    else if (0xE0 <=? b) && (b <=? 0xEF) then
      (utf8_lead 2 (Z.land b 0xF)
         (if b =? 0xE0 then 0xA0 else lower_boundary st)
         (if b =? 0xED then 0x9F else upper_boundary st),
       Res_continue)
    else if (0xF0 <=? b) && (b <=? 0xF4) then
      (utf8_lead 3 (Z.land b 0x7)
         (if b =? 0xF0 then 0x90 else lower_boundary st)
         (if b =? 0xF4 then 0x8F else upper_boundary st),
       Res_continue)
    else (st, Res_error)
  else if negb ((lower_boundary st <=? b) && (b <=? upper_boundary st)) then
    (utf8_initial, Res_error_restore)
  else
    let cp := Z.lor (Z.shiftl (code_point st) 6) (Z.land b 0x3F) in
    let seen := bytes_seen st + 1 in
    if seen =? bytes_needed st then (utf8_initial, Res_code_point cp)
    else
      ({| code_point := cp; bytes_seen := seen;
          bytes_needed := bytes_needed st;
          lower_boundary := 0x80; upper_boundary := 0xBF |},
       Res_continue).

(** Processing one handler result: in fatal mode an error throws a
    [TypeError], otherwise it emits U+FFFD. *)
Definition process (fatal : bool) (r : result)
    (tail : completion (list Z)) : completion (list Z) :=
  match r with
  | Res_continue => tail
  | Res_code_point c => cons c <$> tail
  | Res_error | Res_error_restore =>
      if fatal then Throw TypeError else cons 0xFFFD <$> tail
  end.

(** Running the UTF-8 decoder over the input queue; the result is the
    queue of scalar values. *)
Fixpoint utf8_run (fatal : bool) (st : utf8_decoder)
    (input : list Byte.byte) : completion (list Z) :=
  match input with
  | [] =>
      if bytes_needed st =? 0 then Normal []
      else process fatal Res_error (Normal [])
  | b :: rest =>
      let '(st1, r1) := utf8_handler st (u8 b) in
      match r1 with
      | Res_error_restore =>
          let '(st2, r2) := utf8_handler st1 (u8 b) in
          process fatal Res_error (process fatal r2 (utf8_run fatal st2 rest))
      | _ => process fatal r1 (utf8_run fatal st1 rest)
      end
  end.

(** The decoder is created with [ignoreBOM] false: one leading U+FEFF is
    dropped when the output of a UTF-8 decoder is serialized. *)
Definition strip_bom (cps : list Z) : list Z :=
  match cps with
  | c :: rest => if c =? 0xFEFF then rest else cps
  | [] => []
  end.

(** The UTF-16 code units of a scalar value. *)
Definition utf16_units (c : Z) : list Z :=
  if c <? 0x10000 then [c]
  else [0xD800 + Z.shiftr (c - 0x10000) 10;
        0xDC00 + Z.land (c - 0x10000) 0x3FF].

(** A sequence of scalar values as a JavaScript string. *)
Definition to_jsstring (cps : list Z) : jsstring :=
  flat_map utf16_units cps.

Definition utf8_decode (fatal : bool) (input : list Byte.byte)
  : completion jsstring :=
  cps ← utf8_run fatal utf8_initial input;
  mret (to_jsstring (strip_bom cps)).

(** [new TextDecoder(label, { fatal }).decode(input)], given the legacy
    decoders of the platform. *)
Definition TextDecoder_decode
    (legacy : encoding -> bool -> list Byte.byte -> completion jsstring)
    (label : string) (fatal : bool) (input : list Byte.byte)
  : completion jsstring :=
  match get_encoding label with
  | None => Throw RangeError
  | Some UTF_8 => utf8_decode fatal input
  | Some windows_1252 => Normal (windows_1252_decode input)
  | Some e => legacy e fatal input
  end.

End Encoding.

(* ===================================================================== *)
(** * The program                                                         *)
(* ===================================================================== *)

(** An extracted file as stored in [extractedFiles]. *)
Record FileEntry := {
  entry_name : jsstring;
  entry_path : jsstring;
  entry_size : Z;
  entry_type : jsstring;
  entry_content : list Byte.byte
}.

(** The variables of the TAR scan: the cursor, the progress counter and the
    shared dictionary of extracted files. *)
Record scan_state := {
  offset : Z;
  processedFiles : Z;
  extractedFiles : gmap jsstring FileEntry
}.

(** How one pass through the body of the [while] loop ends. *)
Inductive step :=
| Break
| Next (st : scan_state).

Section Program.

(** [new TextDecoder(label, { fatal }).decode(bytes)]. *)
Variable TextDecoder :
  string -> bool -> list Byte.byte -> completion jsstring.

(** [getMimeType], a lookup of the extension in a fixed table. The scan
    stores its result and never inspects it. *)
Variable getMimeType : jsstring -> jsstring.

(** ** smartDecodeFileName *)

Definition isAscii (bytes : list Byte.byte) : bool :=
  forallb (fun b => negb (127 <? u8 b)) bytes.

Definition encodings : list string := ["gbk"; "gb2312"; "big5"; "shift-jis"]%string.

(** The [for (const encoding of encodings)] loop: [Some decoded] when an
    iteration returns, [None] when the loop runs to its end. A decoder
    that throws is skipped. *)
Fixpoint tryEncodings (encs : list string) (bytes : list Byte.byte)
  : option jsstring :=
  match encs with
  | [] => None
  | encoding :: rest =>
      match TextDecoder encoding false bytes with
      | Normal decoded =>
          let replacementCount := count_matches 0xFFFD decoded in
          if ratio_below_tenth replacementCount (Z.of_nat (List.length decoded))
          then Some decoded
          else tryEncodings rest bytes
      | Throw _ => tryEncodings rest bytes
      end
  end.

Definition smartDecodeFileName (bytes : list Byte.byte)
  : completion jsstring :=
  if isAscii bytes then TextDecoder "ascii" false bytes
  else
    match TextDecoder "utf-8" true bytes with
    | Normal decoded => Normal decoded
    | Throw _ =>
        match tryEncodings encodings bytes with
        | Some decoded => Normal decoded
        | None => TextDecoder "latin1" false bytes
        end
    end.

(** ** extractTar *)

(** The end-of-archive test: [isEnd] stays true while the bytes of the
    block at [offset] are zero. [n] bounds the iterations left. *)
Fixpoint isEnd_loop (buffer : list Byte.byte) (offset i : Z) (n : nat)
  : completion bool :=
  match n with
  | O => Normal true
  | S n' =>
      if (i <? 512) && (offset + i <? byteLength buffer) then
        b ← getUint8 buffer (offset + i);
        if u8 b =? 0 then isEnd_loop buffer offset (i + 1) n'
        else Normal false
      else Normal true
  end.

Definition isEnd (buffer : list Byte.byte) (offset : Z) : completion bool :=
  isEnd_loop buffer offset 0 512.

(** The name field: the bytes of [offset .. offset + 100) before the first
    NUL, that is [fileNameBytes.slice(0, fileNameLength)]. *)
Fixpoint fileNameBytes_loop (buffer : list Byte.byte) (offset i : Z)
    (n : nat) : completion (list Byte.byte) :=
  match n with
  | O => Normal []
  | S n' =>
      b ← getUint8 buffer (offset + i);
      if u8 b =? 0 then Normal []
      else cons b <$> fileNameBytes_loop buffer offset (i + 1) n'
  end.

Definition fileNameBytes (buffer : list Byte.byte) (offset : Z)
  : completion (list Byte.byte) :=
  fileNameBytes_loop buffer offset 0 100.

(** The size field: the characters of [offset + 124 .. offset + 136)
    before the first NUL or space. *)
Fixpoint sizeStr_loop (buffer : list Byte.byte) (offset i : Z) (n : nat)
  : completion jsstring :=
  match n with
  | O => Normal []
  | S n' =>
      b ← getUint8 buffer (offset + i);
      if (u8 b =? 0) || (u8 b =? 32) then Normal []
      else cons (u8 b) <$> sizeStr_loop buffer offset (i + 1) n'
  end.

Definition sizeStr (buffer : list Byte.byte) (offset : Z)
  : completion jsstring :=
  sizeStr_loop buffer offset 124 12.

(** [parseInt(sizeStr.trim(), 8) || 0]. *)
Definition fileSize_of (sizeStr : jsstring) : Z :=
  or_zero (parseInt (trim sizeStr) 8).

(** The test that guards the emission of an entry. *)
Definition is_regular_file (fileSize : Z) (fileName : jsstring)
    (fileType : Z) : bool :=
  (0 <? fileSize) && negb (endsWith fileName 47)
  && ((fileType =? 0) || (fileType =? 48)).

(** One pass through the body of the [while] loop. The call of
    [updateProgress] only touches the page and is left out. *)
Definition loopBody (buffer : list Byte.byte) (st : scan_state)
  : completion step :=
  is_end ← isEnd buffer (offset st);
  if is_end : bool then mret Break
  else
    nameBytes ← fileNameBytes buffer (offset st);
    fileName ← smartDecodeFileName nameBytes;
    match fileName with
    | [] => mret Break
    | _ =>
        size_str ← sizeStr buffer (offset st);
        let fileSize := fileSize_of size_str in
        fileType ← getUint8 buffer (offset st + 156);
        let offset1 := offset st + 512 in
        let st1 :=
          if is_regular_file fileSize fileName (u8 fileType) then
            let fileData := slice buffer offset1 (offset1 + fileSize) in
            {| offset := offset1;
               processedFiles := processedFiles st + 1;
               extractedFiles :=
                 assign (extractedFiles st) fileName
                   {| entry_name := split_pop 47 fileName;
                      entry_path := fileName;
                      entry_size := byteLength fileData;
                      entry_type := getMimeType fileName;
                      entry_content := fileData |} |}
          else
            {| offset := offset1;
               processedFiles := processedFiles st;
               extractedFiles := extractedFiles st |} in
        mret (Next {| offset := offset st1 + ceil_div fileSize 512 * 512;
                      processedFiles := processedFiles st1;
                      extractedFiles := extractedFiles st1 |})
    end.

(** The [while (offset < arrayBuffer.byteLength - 512)] loop. [None]
    means that [fuel] passes were not enough to leave the loop. *)
Fixpoint scan (fuel : nat) (buffer : list Byte.byte) (st : scan_state)
  : option (completion scan_state) :=
  match fuel with
  | O => None
  | S fuel' =>
      if offset st <? byteLength buffer - 512 then
        match loopBody buffer st with
        | Normal Break => Some (Normal st)
        | Normal (Next st') => scan fuel' buffer st'
        | Throw e => Some (Throw e)
        end
      else Some (Normal st)
  end.

Definition no_files_message : string := "未找到有效的文件".
Definition tar_failed_message : string :=
  "TAR解压失败，可能是文件损坏或格式不支持".

(** [extractTar(file)] on the bytes of the file, started with the
    dictionary [files]. The result is the dictionary it leaves, or the
    error it throws; [None] when the scan does not finish within [fuel]
    passes. *)
Definition extractTar (fuel : nat) (buffer : list Byte.byte)
    (files : gmap jsstring FileEntry)
  : option (completion (gmap jsstring FileEntry)) :=
  let start :=
    {| offset := 0; processedFiles := 0; extractedFiles := files |} in
  match scan fuel buffer start with
  | None => None
  | Some scanned =>
      Some (try_catch
              (st ← scanned;
               if keys_length (extractedFiles st) =? 0
               then Throw (Error no_files_message)
               else mret (extractedFiles st))
              (fun _ => Throw (Error tar_failed_message)))
  end.

End Program.

(* ===================================================================== *)
(** * The header fields and the encodings as the specification names them *)
(* ===================================================================== *)

(** The fields of the 512-byte header record at a cursor, described on the
    buffer itself. The theorems relate the loops of [extractTar] to them. *)
Module Header.

(** The prefix of [l] before the first element on which [stop] holds. *)
Fixpoint before {A} (stop : A -> bool) (l : list A) : list A :=
  match l with
  | [] => []
  | x :: rest => if stop x then [] else x :: before stop rest
  end.

(** The bytes of [cursor + first .. cursor + first + count). *)
Definition field (buffer : list Byte.byte) (cursor : Z) (first count : nat)
  : list Byte.byte :=
  take count (drop (Z.to_nat cursor + first) buffer).

(** Every byte of the 512-byte block at the cursor is zero. *)
Definition zero_block (buffer : list Byte.byte) (cursor : Z) : bool :=
  forallb (fun b => u8 b =? 0) (field buffer cursor 0 512).

(** Name: offset 0, 100 bytes, NUL-terminated. *)
Definition name_bytes (buffer : list Byte.byte) (cursor : Z)
  : list Byte.byte :=
  before (fun b => u8 b =? 0) (field buffer cursor 0 100).

(** Size: offset 124, 12 bytes, ended by a NUL or a space. *)
Definition size_chars (buffer : list Byte.byte) (cursor : Z) : jsstring :=
  u8 <$> before (fun b => (u8 b =? 0) || (u8 b =? 32))
                (field buffer cursor 124 12).

(** Type flag: offset 156, one byte. *)
Definition type_flag (buffer : list Byte.byte) (cursor : Z) : Z :=
  match buffer !! (Z.to_nat cursor + 156)%nat with
  | Some b => u8 b
  | None => 0
  end.

(** The value of a string of octal digits. *)
Fixpoint octal_value_aux (acc : Z) (digits : jsstring) : Z :=
  match digits with
  | [] => acc
  | c :: rest => octal_value_aux (8 * acc + (c - 48)) rest
  end.

Definition octal_value (digits : jsstring) : Z := octal_value_aux 0 digits.

Definition is_octal_digit (c : Z) : Prop := 48 <= c <= 55.


(** The string is not empty and its first code unit satisfies [P]. *)
Definition starts_with (P : Z -> Prop) (s : jsstring) : Prop :=
  match s with
  | c :: _ => P c
  | [] => False
  end.


(** The payload of an entry: the [size] bytes that follow the header, as
    far as the buffer holds them. *)
Definition payload (buffer : list Byte.byte) (cursor size : Z)
  : list Byte.byte :=
  take (Z.to_nat size) (drop (Z.to_nat (cursor + 512)) buffer).

End Header.

(** The replacement ratio of a decoded name, as a rational number. *)
Definition low_replacement_ratio (decoded : jsstring) : Prop :=
  decoded <> [] /\
  (inject_Z (count_matches 0xFFFD decoded)
     / inject_Z (Z.of_nat (List.length decoded)) < 1 # 10)%Q.

(** A decode attempt is accepted when it returns a string whose replacement
    ratio is below one tenth. *)
Definition accepted (attempt : completion jsstring) : Prop :=
  exists decoded, attempt = Normal decoded /\ low_replacement_ratio decoded.

(** The replacement characters of a decoded name as the specification
    counts them: the code units equal to U+FFFD, one after the other. *)
Fixpoint replacement_count (decoded : jsstring) : nat :=
  match decoded with
  | [] => O
  | c :: rest =>
      if c =? 0xFFFD then S (replacement_count rest)
      else replacement_count rest
  end.

(** The decoding is not empty and the ratio of its replacement characters
    to its length is strictly below one tenth. *)
Definition few_replacements (decoded : jsstring) : Prop :=
  decoded <> [] /\
  (inject_Z (Z.of_nat (replacement_count decoded))
     / inject_Z (Z.of_nat (List.length decoded)) < 1 # 10)%Q.

(** A decode attempt qualifies when it returns such a decoding. *)
Definition qualifies (attempt : completion jsstring) : Prop :=
  exists decoded, attempt = Normal decoded /\ few_replacements decoded.

(** Unicode scalar values and their UTF-8 encoding. *)
Module Utf8.

Definition is_scalar (c : Z) : Prop :=
  0 <= c <= 0x10FFFF /\ ~ (0xD800 <= c <= 0xDFFF).

(** The byte with a given value. *)
Definition byte_of (z : Z) : Byte.byte :=
  match Byte.of_N (Z.to_N z) with
  | Some b => b
  | None => Byte.x00
  end.

(** The UTF-8 encoder's bytes for one scalar value. *)
Definition encode_code_point (c : Z) : list Byte.byte :=
  if c <=? 0x7F then [byte_of c]
  else if c <=? 0x7FF then
    [byte_of (Z.shiftr c 6 + 0xC0);
     byte_of (Z.lor 0x80 (Z.land c 0x3F))]
  else if c <=? 0xFFFF then
    [byte_of (Z.shiftr c 12 + 0xE0);
     byte_of (Z.lor 0x80 (Z.land (Z.shiftr c 6) 0x3F));
     byte_of (Z.lor 0x80 (Z.land c 0x3F))]
  else
    [byte_of (Z.shiftr c 18 + 0xF0);
     byte_of (Z.lor 0x80 (Z.land (Z.shiftr c 12) 0x3F));
     byte_of (Z.lor 0x80 (Z.land (Z.shiftr c 6) 0x3F));
     byte_of (Z.lor 0x80 (Z.land c 0x3F))].

Definition encode (s : list Z) : list Byte.byte :=
  flat_map encode_code_point s.

End Utf8.

(** The effect of one pass over a header, in closed form. *)
Module Pass.

(** A cursor at which the loop test lets the body run. *)
Definition header_in_range (buffer : list Byte.byte) (cursor : Z) : Prop :=
  0 <= cursor < byteLength buffer - 512.

(** The size that the scan reads from the header at the cursor. *)
Definition header_size (buffer : list Byte.byte) (cursor : Z) : Z :=
  fileSize_of (Header.size_chars buffer cursor).

(** The entry stored for a regular file. *)
Definition emitted_entry (mime : jsstring -> jsstring)
    (buffer : list Byte.byte) (cursor : Z) (fileName : jsstring)
    (fileSize : Z) : FileEntry :=
  {| entry_name := split_pop 47 fileName;
     entry_path := fileName;
     entry_size := byteLength (Header.payload buffer cursor fileSize);
     entry_type := mime fileName;
     entry_content := Header.payload buffer cursor fileSize |}.

(** The state after the header at the cursor of [st] has been read. *)
Definition after_header (mime : jsstring -> jsstring)
    (buffer : list Byte.byte) (st : scan_state) (fileName : jsstring)
  : scan_state :=
  let fileSize := header_size buffer (offset st) in
  let emit := is_regular_file fileSize fileName
                (Header.type_flag buffer (offset st)) in
  {| offset := offset st + 512 + ceil_div fileSize 512 * 512;
     processedFiles :=
       if emit then processedFiles st + 1 else processedFiles st;
     extractedFiles :=
       if emit then
         assign (extractedFiles st) fileName
           (emitted_entry mime buffer (offset st) fileName fileSize)
       else extractedFiles st |}.

(** As long as the counter is zero nothing has been stored. *)
Definition counts_entries (st : scan_state) : Prop :=
  0 <= processedFiles st
  /\ (processedFiles st = 0 -> extractedFiles st = ∅).

End Pass.

(** Archives used as concrete inputs. *)
Module Fixtures.

Definition bytes (s : string) : list Byte.byte := list_byte_of_string s.

(** [l] padded with NUL bytes to [n] bytes. *)
Definition pad (n : nat) (l : list Byte.byte) : list Byte.byte :=
  l ++ repeat Byte.x00 (n - List.length l).

(** A header block with the three fields that the scan reads. *)
Definition tar_header (name size_field : string) (typeflag : Byte.byte)
  : list Byte.byte :=
  pad 512 (pad 156 (pad 124 (bytes name) ++ bytes size_field) ++ [typeflag]).

Definition zero_block : list Byte.byte := repeat Byte.x00 512.

(** A platform without legacy decoders: constructing one throws. *)
Definition no_legacy
  : Encoding.encoding -> bool -> list Byte.byte -> completion jsstring :=
  fun _ _ _ => Throw RangeError.

(** A platform whose legacy decoders know one GBK character. *)
Definition gbk_ni
  : Encoding.encoding -> bool -> list Byte.byte -> completion jsstring :=
  fun e _ input =>
    match e, input with
    | Encoding.GBK, [Byte.xc4; Byte.xe3] => Normal [0x4F60]
    | _, _ => Normal (map (fun _ => 0xFFFD) input)
    end.

Definition no_mime : jsstring -> jsstring := fun _ => [].

Definition start : scan_state :=
  {| offset := 0; processedFiles := 0; extractedFiles := ∅ |}.

(** One file [a.txt] holding [hello], then a zero block. *)
Definition one_file : list Byte.byte :=
  tar_header "a.txt" "00000000005" Byte.x30
  ++ pad 512 (bytes "hello") ++ zero_block.

(** A single header and nothing after it. *)
Definition lone_header : list Byte.byte :=
  tar_header "a.txt" "00000000005" Byte.x30.


(** A header whose size field reads minus 512. *)
Definition negative_size : list Byte.byte :=
  tar_header "a" "-1000" Byte.x30 ++ zero_block.

(** A file, then a header whose size field reads minus 2048. *)
Definition file_then_negative : list Byte.byte :=
  tar_header "a.txt" "00000000005" Byte.x30
  ++ pad 512 (bytes "hello")
  ++ tar_header "b" "-4000" Byte.x30 ++ zero_block.

(** One file named [__proto__] holding [hello], then a zero block. *)
Definition proto_file : list Byte.byte :=
  tar_header "__proto__" "00000000005" Byte.x30
  ++ pad 512 (bytes "hello") ++ zero_block.



End Fixtures.

(* ===================================================================== *)
(** * The rest of the script: names, lookup tables and dispatch           *)
(* ===================================================================== *)

(** String built-ins used outside the TAR scan. *)
Module Str.

(** [String.fromCharCode(c).toLowerCase()] for an ASCII code unit. *)
Definition ascii_lower (c : Z) : Z :=
  if (65 <=? c) && (c <=? 90) then c + 32 else c.

Definition is_ascii (s : jsstring) : bool := forallb (fun c => c <? 128) s.

(** [s.toLowerCase()]. On a string of ASCII code units the Unicode case
    conversion lowers the letters A to Z one by one. On other strings it
    depends on the Unicode tables and on context; [non_ascii] stands for
    it. *)
Definition toLowerCase (non_ascii : jsstring -> jsstring) (s : jsstring)
  : jsstring :=
  if is_ascii s then ascii_lower <$> s else non_ascii s.

(** [s.lastIndexOf(String.fromCharCode(c))]: [found] is the last match
    before position [i]. *)
Fixpoint lastIndexOf_from (c : Z) (s : jsstring) (i found : Z) : Z :=
  match s with
  | [] => found
  | x :: rest => lastIndexOf_from c rest (i + 1) (if x =? c then i else found)
  end.

Definition lastIndexOf (c : Z) (s : jsstring) : Z :=
  lastIndexOf_from c s 0 (-1).

(** [s.substring(a, b)]: both arguments are clamped to the string and
    swapped when the first exceeds the second. *)
Definition substring (s : jsstring) (a b : Z) : jsstring :=
  let len := Z.of_nat (List.length s) in
  let a' := Z.min (Z.max a 0) len in
  let b' := Z.min (Z.max b 0) len in
  let from := Z.min a' b' in
  let to := Z.max a' b' in
  take (Z.to_nat (to - from)) (drop (Z.to_nat from) s).

(** [s.substring(a)]. *)
Definition substring_from (s : jsstring) (a : Z) : jsstring :=
  substring s a (Z.of_nat (List.length s)).

(** [s.slice(first, final)]: negative arguments count from the end. *)
Definition slice (s : jsstring) (first final : Z) : jsstring :=
  let len := Z.of_nat (List.length s) in
  let from := relative_index len first in
  let to := relative_index len final in
  take (Z.to_nat (Z.max (to - from) 0)) (drop (Z.to_nat from) s).

(** [s.endsWith(suffix)]. *)
Definition endsWith (s suffix : jsstring) : bool :=
  bool_decide
    (drop (List.length s - List.length suffix) s = suffix).

(** [[^/.]+$]: one or more code units, none of them a slash or a dot, up to
    the end of the string. *)
Definition extension_chars (s : jsstring) : bool :=
  match s with
  | [] => false
  | _ => forallb (fun c => negb ((c =? 47) || (c =? 46))) s
  end.

(** [s.replace(/\.[^/.]+$/, '')]: the leftmost position at which the
    pattern matches is replaced; the match runs to the end of the string. *)
Fixpoint strip_extension (s : jsstring) : jsstring :=
  match s with
  | [] => []
  | c :: rest =>
      if (c =? 46) && extension_chars rest then []
      else c :: strip_extension rest
  end.

(** [list.includes(x)]. *)
Definition includes (l : list jsstring) (x : jsstring) : bool :=
  bool_decide (x ∈ l).

End Str.

(** Reading a property of an object literal. *)
Module Obj.

(** What a property read can give here: a string, or one of the members
    that every object literal inherits from [Object.prototype] (functions
    and, for [__proto__], the prototype itself). *)
Inductive value :=
| VString (s : jsstring)
| VInherited (key : jsstring).

(** The property names of [Object.prototype]. *)
Definition inherited_keys : list jsstring :=
  map lit
    [ "constructor"; "__defineGetter__"; "__defineSetter__";
      "hasOwnProperty"; "__lookupGetter__"; "__lookupSetter__";
      "isPrototypeOf"; "propertyIsEnumerable"; "toString"; "valueOf";
      "__proto__"; "toLocaleString" ]%string.

(** The own property [key] of a literal written as a list of pairs. *)
Fixpoint own_property (table : list (jsstring * jsstring)) (key : jsstring)
  : option jsstring :=
  match table with
  | [] => None
  | (k, v) :: rest =>
      if bool_decide (k = key) then Some v else own_property rest key
  end.

(** [table[key]]: the own property, else the inherited member, else
    [undefined]. *)
Definition get (table : list (jsstring * jsstring)) (key : jsstring)
  : option value :=
  match own_property table key with
  | Some v => Some (VString v)
  | None =>
      if bool_decide (key ∈ inherited_keys) then Some (VInherited key)
      else None
  end.

(** [v || fallback]: [undefined] and the empty string are falsy. *)
Definition or_string (v : option value) (fallback : jsstring) : value :=
  match v with
  | Some (VString []) => VString fallback
  | Some x => x
  | None => VString fallback
  end.

End Obj.

(** A [File] as the handlers read it. *)
Record File := {
  file_name : jsstring;
  file_size : Z;
  file_type : jsstring;
  file_webkitRelativePath : jsstring;
  file_bytes : list Byte.byte
}.

(** A [Blob]: its type and its bytes. *)
Record Blob := {
  blob_type : jsstring;
  blob_bytes : list Byte.byte
}.

(** An entry of a ZIP archive as JSZip presents it: its path, whether it is
    a directory, and what [async('blob')] resolves to or rejects with. *)
Record ZipObject := {
  zip_path : jsstring;
  zip_dir : bool;
  zip_async : completion Blob
}.

(** What a handler does after its checks. *)
Inductive handled :=
| ShowError (message : string)
| Extract (file : File)
| Compress (files : list File).

(** Why [handleImageCompressFiles] shows an error, with the file named in
    the message. *)
Inductive image_handled :=
| UnsupportedImage (name : jsstring)
| ImageTooLarge (name : jsstring) (limit : string)
| NoValidImages
| CompressImages (validFiles : list File).

(** How [extractArchive] ends: the result view over the dictionary, or the
    error popup with [prefix + error.message] and the interface reset. *)
Inductive archive_outcome :=
| ShowResults (files : gmap jsstring FileEntry)
| ArchiveError (prefix : string) (error : exn).

Section Script.

(** The platform and the libraries: the decoders, the case conversion of
    non-ASCII strings, JSZip's [loadAsync] (entries in the order of
    [Object.entries(zipData.files)]), pako's [ungzip] ([None] when the
    library is not loaded) and [formatFileSize], whose text depends on
    floating-point logarithms. *)
Variable TextDecoder :
  string -> bool -> list Byte.byte -> completion jsstring.
Variable non_ascii_lower : jsstring -> jsstring.
Variable loadAsync : File -> completion (list ZipObject).
Variable pako : option (list Byte.byte -> completion (list Byte.byte)).
Variable formatFileSize : Z -> string.

Definition MAX_FILE_SIZE : Z := 500 * 1024 * 1024.

(** [path.split('.').pop().toLowerCase()]. *)
Definition extension (path : jsstring) : jsstring :=
  Str.toLowerCase non_ascii_lower (split_pop 46 path).

(** ** getMimeType and getFileIcon *)

Definition mimeTypes : list (jsstring * jsstring) :=
  map (fun p => (lit (fst p), lit (snd p)))
    [ ("jpg", "image/jpeg");
      ("jpeg", "image/jpeg");
      ("png", "image/png");
      ("gif", "image/gif");
      ("pdf", "application/pdf");
      ("txt", "text/plain");
      ("html", "text/html");
      ("htm", "text/html");
      ("doc", "application/msword");
      ("docx", "application/vnd.openxmlformats-officedocument.wordprocessingml.document");
      ("xls", "application/vnd.ms-excel");
      ("xlsx", "application/vnd.openxmlformats-officedocument.spreadsheetml.sheet");
      ("ppt", "application/vnd.ms-powerpoint");
      ("pptx", "application/vnd.openxmlformats-officedocument.presentationml.presentation");
      ("mp3", "audio/mpeg");
      ("mp4", "video/mp4");
      ("zip", "application/zip");
      ("tar", "application/x-tar");
      ("gz", "application/gzip") ]%string.

Definition getMimeType (path : jsstring) : Obj.value :=
  Obj.or_string (Obj.get mimeTypes (extension path))
    (lit "application/octet-stream").

Definition iconMap : list (jsstring * jsstring) :=
  map (fun p => (lit (fst p), lit (snd p)))
    [ ("jpg", "fas fa-file-image");
      ("jpeg", "fas fa-file-image");
      ("png", "fas fa-file-image");
      ("gif", "fas fa-file-image");
      ("svg", "fas fa-file-image");
      ("pdf", "fas fa-file-pdf");
      ("doc", "fas fa-file-word");
      ("docx", "fas fa-file-word");
      ("txt", "fas fa-file-alt");
      ("rtf", "fas fa-file-alt");
      ("xls", "fas fa-file-excel");
      ("xlsx", "fas fa-file-excel");
      ("csv", "fas fa-file-csv");
      ("ppt", "fas fa-file-powerpoint");
      ("pptx", "fas fa-file-powerpoint");
      ("html", "fas fa-file-code");
      ("htm", "fas fa-file-code");
      ("css", "fas fa-file-code");
      ("js", "fas fa-file-code");
      ("json", "fas fa-file-code");
      ("xml", "fas fa-file-code");
      ("py", "fas fa-file-code");
      ("java", "fas fa-file-code");
      ("c", "fas fa-file-code");
      ("cpp", "fas fa-file-code");
      ("mp3", "fas fa-file-audio");
      ("wav", "fas fa-file-audio");
      ("ogg", "fas fa-file-audio");
      ("mp4", "fas fa-file-video");
      ("avi", "fas fa-file-video");
      ("mov", "fas fa-file-video");
      ("wmv", "fas fa-file-video");
      ("zip", "fas fa-file-archive");
      ("tar", "fas fa-file-archive");
      ("gz", "fas fa-file-archive") ]%string.

Definition getFileIcon (fileName : jsstring) : Obj.value :=
  Obj.or_string (Obj.get iconMap (extension fileName)) (lit "fas fa-file").

(** The [type] field of a dictionary entry is kept as a string. A string
    is stored as it is; [inherited_member] stands for what the field holds
    when [getMimeType] returns a member of [Object.prototype]. *)
Variable inherited_member : jsstring -> jsstring.

Definition type_field (v : Obj.value) : jsstring :=
  match v with
  | Obj.VString s => s
  | Obj.VInherited key => inherited_member key
  end.

Definition mime_field (path : jsstring) : jsstring :=
  type_field (getMimeType path).

(** ** handleFiles *)

Definition supportedFormats : list jsstring :=
  [lit ".zip"; lit ".gz"; lit ".tar"].

Definition size_limit_message : string :=
  "文件大小超过限制（" ++ formatFileSize MAX_FILE_SIZE ++ "）".

Definition unsupported_format_message : string :=
  String.append "目前支持的格式：ZIP、GZ、TAR"
    (String (ascii_of_nat 10) "(RAR、7Z等格式由于浏览器限制暂不支持)").

(** [handleFiles(files)]: only the first file is looked at. Reading it from
    an empty list is a [TypeError]. *)
Definition handleFiles (files : list File) : completion handled :=
  match files with
  | [] => Throw TypeError
  | file :: _ =>
      if MAX_FILE_SIZE <? file_size file then
        Normal (ShowError size_limit_message)
      else
        let fileExt := 46 :: extension (file_name file) in
        if negb (Str.includes supportedFormats fileExt) then
          Normal (ShowError unsupported_format_message)
        else Normal (Extract file)
  end.

(** ** handleCompressFiles *)

Definition total_size_message : string :=
  "文件总大小超过限制（" ++ formatFileSize MAX_FILE_SIZE ++ "）".

Definition handleCompressFiles (files : list File) : handled :=
  let totalSize := fold_left (fun sum file => sum + file_size file) files 0 in
  if MAX_FILE_SIZE <? totalSize then ShowError total_size_message
  else Compress files.

(** ** handleImageCompressFiles *)

Definition supportedTypes : list jsstring :=
  [lit "image/jpeg"; lit "image/jpg"; lit "image/png"; lit "image/webp"].

(** The validation loop; [validFiles] holds the files pushed so far. *)
Fixpoint validate_images (files validFiles : list File) : image_handled :=
  match files with
  | [] =>
      match validFiles with
      | [] => NoValidImages
      | _ => CompressImages validFiles
      end
  | file :: rest =>
      if negb (Str.includes supportedTypes (file_type file)) then
        UnsupportedImage (file_name file)
      else if MAX_FILE_SIZE <? file_size file then
        ImageTooLarge (file_name file) (formatFileSize MAX_FILE_SIZE)
      else validate_images rest (validFiles ++ [file])
  end.

Definition handleImageCompressFiles (files : list File) : image_handled :=
  validate_images files [].

(** ** Names of the results *)

(** The key under which [compressImages] stores a compressed image. *)
Definition compressedName (originalName : jsstring) : jsstring :=
  let nameWithoutExt :=
    Str.substring originalName 0 (Str.lastIndexOf 46 originalName) in
  let ext := Str.substring_from originalName (Str.lastIndexOf 46 originalName) in
  nameWithoutExt ++ lit "(yasuo.zip)" ++ ext.

(** The name that [compressFiles] gives the archive. *)
Definition zipName (files : list File) : jsstring :=
  match files with
  | [file] =>
      match file_webkitRelativePath file with
      | [] => Str.strip_extension (file_name file) ++ lit ".zip"
      | _ => lit "yasuo.zip"
      end
  | _ => lit "yasuo.zip"
  end.

(** The name that [downloadAllFiles] gives the archive of all entries. *)
Definition download_zipName (currentFile : option File) : jsstring :=
  match currentFile with
  | Some file => Str.strip_extension (file_name file) ++ lit "_extracted.zip"
  | None => lit "files.zip"
  end.

(** ** extractZip *)

(** The loop over [Object.entries(zipData.files)]. A directory is skipped;
    a blob that cannot be read ends the loop with its error. *)
Fixpoint extractZip_loop (entries : list ZipObject)
    (files : gmap jsstring FileEntry)
  : completion (gmap jsstring FileEntry) :=
  match entries with
  | [] => Normal files
  | zipEntry :: rest =>
      if zip_dir zipEntry then extractZip_loop rest files
      else
        content ← zip_async zipEntry;
        let path := zip_path zipEntry in
        extractZip_loop rest
          (assign files path
             {| entry_name := split_pop 47 path;
                entry_path := path;
                entry_size := byteLength (blob_bytes content);
                entry_type :=
                  match blob_type content with
                  | [] => mime_field path
                  | t => t
                  end;
                entry_content := blob_bytes content |})
  end.

Definition zip_failed_message : string := "ZIP解压失败".

Definition extractZip (file : File) (files : gmap jsstring FileEntry)
  : completion (gmap jsstring FileEntry) :=
  try_catch
    (entries ← loadAsync file; extractZip_loop entries files)
    (fun _ => Throw (Error zip_failed_message)).

(** ** extractGzip *)

Definition gzip_not_loaded_message : string :=
  "GZIP解压库未加载，请刷新页面重试".
Definition gzip_failed_message : string :=
  "GZIP解压失败，可能是文件损坏或格式不支持".

(** The name without a trailing [.gz], in any letter case. *)
Definition gzip_originalName (name : jsstring) : jsstring :=
  if Str.endsWith (Str.toLowerCase non_ascii_lower name) (lit ".gz")
  then Str.slice name 0 (-3)
  else name.

Definition extractGzip (file : File) (files : gmap jsstring FileEntry)
  : completion (gmap jsstring FileEntry) :=
  try_catch
    (match pako with
     | None => Throw (Error gzip_not_loaded_message)
     | Some ungzip =>
         decompressed ← ungzip (file_bytes file);
         let originalName := gzip_originalName (file_name file) in
         mret (assign files originalName
                 {| entry_name := originalName;
                    entry_path := originalName;
                    entry_size := byteLength decompressed;
                    entry_type := mime_field originalName;
                    entry_content := decompressed |})
     end)
    (fun _ => Throw (Error gzip_failed_message)).

(** ** extractArchive *)

Definition unsupported_archive_message : string := "不支持的文件格式".
Definition extract_failed_prefix : string := "解压失败: ".

(** [extractArchive(file)]: the dictionary is reset, the extractor is chosen
    by the extension, and an error of the extractor ends in the popup.
    [None] when the TAR scan does not finish within [fuel] passes. *)
Definition extractArchive (fuel : nat) (file : File)
  : option archive_outcome :=
  let fileExtension := extension (file_name file) in
  let finish (r : completion (gmap jsstring FileEntry)) :=
    match r with
    | Normal files => ShowResults files
    | Throw error => ArchiveError extract_failed_prefix error
    end in
  if bool_decide (fileExtension = lit "zip") then
    Some (finish (extractZip file ∅))
  else if bool_decide (fileExtension = lit "gz") then
    Some (finish (extractGzip file ∅))
  else if bool_decide (fileExtension = lit "tar") then
    finish <$> extractTar TextDecoder mime_field fuel (file_bytes file) ∅
  else
    Some (finish (Throw (Error unsupported_archive_message))).

End Script.

(* ===================================================================== *)
(** * Predicates and samples for the further properties                  *)
(* ===================================================================== *)

(** One pass of the loop of [extractTar] that goes on to the next header:
    the loop test holds at [st] and the body ends in [st']. *)
Definition pass (TD : string -> bool -> list Byte.byte -> completion jsstring)
    (mime : jsstring -> jsstring) (buffer : list Byte.byte)
    (st st' : scan_state) : Prop :=
  offset st < byteLength buffer - 512
  /\ loopBody TD mime buffer st = Normal (Next st').

(** The states that the loop goes through from [st]. *)
Definition visits (TD : string -> bool -> list Byte.byte -> completion jsstring)
    (mime : jsstring -> jsstring) (buffer : list Byte.byte)
  : scan_state -> scan_state -> Prop :=
  rtc (pass TD mime buffer).


(** What the properties below use of [toLowerCase] on a string that is not
    all ASCII: ASCII code units at the end of the string are lowered where
    they stand, whatever stands before them. Case conversion maps every
    character by itself, apart from the Greek capital sigma, and an ASCII
    character to one ASCII character. *)
Definition lowers_ascii_suffix (L : jsstring -> jsstring) : Prop :=
  forall front suffix,
    Str.is_ascii suffix = true ->
    exists front', L (front ++ suffix) = front' ++ (Str.ascii_lower <$> suffix).

(** A file that passes both checks of the validation loop. *)
Definition valid_image (file : File) : Prop :=
  (file_type file ∈ supportedTypes) /\ file_size file <= 524288000.

(** Entries as [extractZip] stores them. *)
Definition stored_as_file (path : jsstring) (entry : FileEntry) : Prop :=
  entry_path entry = path
  /\ entry_name entry = split_pop 47 path
  /\ (47 ∉ entry_name entry)
  /\ entry_size entry = byteLength (entry_content entry).

(** Inputs of the script used as concrete cases. *)
Module Samples.

(** A case conversion that lowers the letters A to Z and nothing else. *)
Definition lower : jsstring -> jsstring := fmap Str.ascii_lower.

(** A gzipped archive with a name that is not ASCII. *)
Definition tar_gz_file : File :=
  {| file_name := [0x6587; 0x4EF6] ++ lit ".tar.GZ"; file_size := 20;
     file_type := []; file_webkitRelativePath := []; file_bytes := [] |}.


Definition zip_file : File :=
  {| file_name := lit "docs.zip"; file_size := 0; file_type := [];
     file_webkitRelativePath := []; file_bytes := [] |}.

Definition zip_folder : ZipObject :=
  {| zip_path := lit "docs/"; zip_dir := true;
     zip_async := Normal {| blob_type := []; blob_bytes := [] |} |}.

Definition zip_text : ZipObject :=
  {| zip_path := lit "docs/a.txt"; zip_dir := false;
     zip_async := Normal {| blob_type := [];
                            blob_bytes := Fixtures.bytes "hello" |} |}.

Definition zip_broken : ZipObject :=
  {| zip_path := lit "docs/b.bin"; zip_dir := false;
     zip_async := Throw TypeError |}.

Definition zip_entries : list ZipObject := [zip_folder; zip_text; zip_broken].

End Samples.

(** [lia] after division and remainder by constants have been replaced by
    their defining equations. *)
Ltac divlia := Z.to_euclidean_division_equations; lia.

(* ===================================================================== *)
(** * Properties of the TAR scan                                          *)
(* ===================================================================== *)

Import Encoding Pass.

(** ** The built-ins on concrete inputs *)

Example parseInt_octal_size : parseInt (lit "00000000005") 8 = Num 5.
Proof. reflexivity. Qed.

Example parseInt_stops_at_a_letter : parseInt (lit "12zz") 8 = Num 10.
Proof. reflexivity. Qed.

Example parseInt_digit_eight : parseInt (lit "8") 8 = NaN.
Proof. reflexivity. Qed.

Example parseInt_minus_sign : parseInt (lit "-1000") 8 = Num (-512).
Proof. reflexivity. Qed.

Example fileSize_of_negative : fileSize_of (lit "-1000") = -512.
Proof. reflexivity. Qed.

Example trim_tab_and_newline : trim (9 :: lit " 17 " ++ [10]) = lit "17".
Proof. reflexivity. Qed.

Example ceil_div_examples :
  ceil_div 5 512 = 1 /\ ceil_div 512 512 = 1 /\ ceil_div 513 512 = 2
  /\ ceil_div 0 512 = 0 /\ ceil_div (-5) 512 = 0 /\ ceil_div (-512) 512 = -1.
Proof. repeat split. Qed.

Example slice_is_clamped :
  slice (Fixtures.bytes "hello") 3 10 = Fixtures.bytes "lo".
Proof. reflexivity. Qed.

Example windows_1252_euro : windows_1252_decode [Byte.x80; Byte.xe9] = [0x20AC; 0xE9].
Proof. reflexivity. Qed.

Example utf8_three_bytes :
  utf8_decode true [Byte.xe4; Byte.xbd; Byte.xa0] = Normal [0x4F60].
Proof. reflexivity. Qed.

Example utf8_surrogate_pair :
  utf8_decode true [Byte.xf0; Byte.x9f; Byte.x98; Byte.x80]
  = Normal [0xD83D; 0xDE00].
Proof. reflexivity. Qed.

Example utf8_overlong_is_rejected :
  utf8_decode true [Byte.xc0; Byte.x80] = Throw TypeError.
Proof. reflexivity. Qed.

Example utf8_encoded_surrogate_is_rejected :
  utf8_decode true [Byte.xed; Byte.xa0; Byte.x80] = Throw TypeError.
Proof. reflexivity. Qed.

Example utf8_replacement_mode :
  utf8_decode false [Byte.xc4; Byte.xe3] = Normal [0xFFFD; 0xFFFD].
Proof. reflexivity. Qed.

Example utf8_drops_byte_order_mark :
  utf8_decode true [Byte.xef; Byte.xbb; Byte.xbf; Byte.x61] = Normal (lit "a").
Proof. reflexivity. Qed.

Example ratio_one_in_ten_is_rejected :
  ratio_below_tenth 1 10 = false /\ ratio_below_tenth 1 11 = true
  /\ ratio_below_tenth 0 0 = false.
Proof. repeat split. Qed.

(** ** Reading the buffer *)

Lemma getUint8_in_range (buffer : list Byte.byte) (index : Z) :
  0 <= index < byteLength buffer ->
  exists b, buffer !! Z.to_nat index = Some b /\ getUint8 buffer index = Normal b.
Proof.
  intros [Hlo Hhi]. unfold getUint8, byteLength in *.
  destruct (lookup_lt_is_Some_2 buffer (Z.to_nat index)) as [b Hb]; [lia|].
  exists b. split; [exact Hb|].
  rewrite Hb. destruct (Z.leb_spec 0 index); [reflexivity|lia].
Qed.

Lemma getUint8_negative (buffer : list Byte.byte) (index : Z) :
  index < 0 -> getUint8 buffer index = Throw RangeError.
Proof.
  intros H. unfold getUint8. destruct (Z.leb_spec 0 index); [lia|reflexivity].
Qed.

Lemma drop_field_cons (buffer : list Byte.byte) (k : nat) (b : Byte.byte) (n : nat) :
  buffer !! k = Some b ->
  take (S n) (drop k buffer) = b :: take n (drop (S k) buffer).
Proof.
  intros Hb. rewrite (drop_S _ _ _ Hb). reflexivity.
Qed.

Lemma isEnd_loop_spec (buffer : list Byte.byte) (off : Z) (n : nat) :
  forall i, 0 <= off -> 0 <= i -> i + Z.of_nat n <= 512 ->
    off + i + Z.of_nat n <= byteLength buffer ->
    isEnd_loop buffer off i n
    = Normal (forallb (fun b => u8 b =? 0) (take n (drop (Z.to_nat (off + i)) buffer))).
Proof.
  induction n as [|n IH]; intros i Hoff Hi H512 Hlen.
  - reflexivity.
  - cbn [isEnd_loop].
    destruct (Z.ltb_spec i 512); [|lia].
    destruct (Z.ltb_spec (off + i) (byteLength buffer)); [|lia].
    cbn [andb].
    destruct (getUint8_in_range buffer (off + i)) as (b & Hb & ->); [lia|].
    rewrite (drop_field_cons _ _ _ _ Hb). cbn [mbind completion_bind forallb].
    destruct (u8 b =? 0); [|reflexivity].
    rewrite IH by lia. cbn [andb].
    replace (Z.to_nat (off + (i + 1))) with (S (Z.to_nat (off + i))) by lia.
    reflexivity.
Qed.

Lemma fileNameBytes_loop_spec (buffer : list Byte.byte) (off : Z) (n : nat) :
  forall i, 0 <= off -> 0 <= i ->
    off + i + Z.of_nat n <= byteLength buffer ->
    fileNameBytes_loop buffer off i n
    = Normal (Header.before (fun b => u8 b =? 0)
                (take n (drop (Z.to_nat (off + i)) buffer))).
Proof.
  induction n as [|n IH]; intros i Hoff Hi Hlen.
  - reflexivity.
  - cbn [fileNameBytes_loop].
    destruct (getUint8_in_range buffer (off + i)) as (b & Hb & ->); [lia|].
    rewrite (drop_field_cons _ _ _ _ Hb).
    cbn [mbind completion_bind Header.before].
    destruct (u8 b =? 0); [reflexivity|].
    rewrite IH by lia.
    replace (Z.to_nat (off + (i + 1))) with (S (Z.to_nat (off + i))) by lia.
    reflexivity.
Qed.

Lemma sizeStr_loop_spec (buffer : list Byte.byte) (off : Z) (n : nat) :
  forall i, 0 <= off -> 0 <= i ->
    off + i + Z.of_nat n <= byteLength buffer ->
    sizeStr_loop buffer off i n
    = Normal (u8 <$> Header.before (fun b => (u8 b =? 0) || (u8 b =? 32))
                (take n (drop (Z.to_nat (off + i)) buffer))).
Proof.
  induction n as [|n IH]; intros i Hoff Hi Hlen.
  - reflexivity.
  - cbn [sizeStr_loop].
    destruct (getUint8_in_range buffer (off + i)) as (b & Hb & ->); [lia|].
    rewrite (drop_field_cons _ _ _ _ Hb).
    cbn [mbind completion_bind Header.before].
    destruct ((u8 b =? 0) || (u8 b =? 32)); [reflexivity|].
    rewrite IH by lia.
    replace (Z.to_nat (off + (i + 1))) with (S (Z.to_nat (off + i))) by lia.
    reflexivity.
Qed.

Lemma isEnd_spec buffer off :
  header_in_range buffer off ->
  isEnd buffer off = Normal (Header.zero_block buffer off).
Proof.
  intros [H0 H1]. unfold isEnd, Header.zero_block, Header.field.
  rewrite isEnd_loop_spec by (change (Z.of_nat 512) with 512; lia).
  replace (Z.to_nat (off + 0)) with (Z.to_nat off + 0)%nat by lia. reflexivity.
Qed.

Lemma fileNameBytes_spec buffer off :
  header_in_range buffer off ->
  fileNameBytes buffer off = Normal (Header.name_bytes buffer off).
Proof.
  intros [H0 H1]. unfold fileNameBytes, Header.name_bytes, Header.field.
  rewrite fileNameBytes_loop_spec by (change (Z.of_nat 100) with 100; lia).
  replace (Z.to_nat (off + 0)) with (Z.to_nat off + 0)%nat by lia. reflexivity.
Qed.

Lemma sizeStr_spec buffer off :
  header_in_range buffer off ->
  sizeStr buffer off = Normal (Header.size_chars buffer off).
Proof.
  intros [H0 H1]. unfold sizeStr, Header.size_chars, Header.field.
  rewrite sizeStr_loop_spec by (change (Z.of_nat 12) with 12; lia).
  replace (Z.to_nat (off + 124)) with (Z.to_nat off + 124)%nat by lia. reflexivity.
Qed.

Lemma fileType_spec buffer off :
  header_in_range buffer off ->
  exists b, getUint8 buffer (off + 156) = Normal b
            /\ u8 b = Header.type_flag buffer off.
Proof.
  intros [H0 H1].
  destruct (getUint8_in_range buffer (off + 156)) as (b & Hb & Hg); [lia|].
  exists b. split; [exact Hg|].
  unfold Header.type_flag.
  replace (Z.to_nat off + 156)%nat with (Z.to_nat (off + 156)) by lia.
  rewrite Hb. reflexivity.
Qed.

Lemma slice_payload buffer cursor size :
  0 <= cursor -> 0 <= size ->
  slice buffer (cursor + 512) (cursor + 512 + size)
  = Header.payload buffer cursor size.
Proof.
  intros Hc Hs. unfold slice, Header.payload, relative_index.
  set (len := byteLength buffer).
  assert (Hlen : len = Z.of_nat (List.length buffer)) by reflexivity.
  destruct (Z.ltb_spec (cursor + 512) 0); [lia|].
  destruct (Z.ltb_spec (cursor + 512 + size) 0); [lia|].
  destruct (Z.le_gt_cases (cursor + 512) len) as [Hin|Hout].
  - rewrite (Z.min_l (cursor + 512) len) by lia.
    destruct (Z.le_gt_cases (cursor + 512 + size) len) as [Hfit|Hcut].
    + f_equal. lia.
    + rewrite (Z.min_r (cursor + 512 + size) len) by lia.
      rewrite !take_ge; [reflexivity| |]; rewrite length_drop; lia.
  - rewrite (Z.min_r (cursor + 512) len) by lia.
    rewrite !drop_ge; [|lia|lia]. by rewrite !take_nil.
Qed.

Lemma payload_length buffer cursor size :
  0 <= cursor -> 0 <= size -> cursor + 512 <= byteLength buffer ->
  byteLength (Header.payload buffer cursor size)
  = Z.min size (byteLength buffer - (cursor + 512)).
Proof.
  intros Hc Hs Hin. unfold Header.payload, byteLength in *.
  rewrite length_take, length_drop. lia.
Qed.

Lemma loopBody_in_range TD mime buffer st :
  header_in_range buffer (offset st) ->
  loopBody TD mime buffer st
  = if Header.zero_block buffer (offset st) then Normal Break
    else match smartDecodeFileName TD (Header.name_bytes buffer (offset st)) with
         | Throw e => Throw e
         | Normal [] => Normal Break
         | Normal fileName => Normal (Next (after_header mime buffer st fileName))
         end.
Proof.
  intros Hin. unfold loopBody.
  rewrite (isEnd_spec _ _ Hin). cbn [mbind completion_bind].
  destruct (Header.zero_block buffer (offset st)); [reflexivity|].
  rewrite (fileNameBytes_spec _ _ Hin). cbn [mbind completion_bind].
  destruct (smartDecodeFileName TD _) as [fileName|e]; [|reflexivity].
  cbn [mbind completion_bind].
  destruct fileName as [|c s]; [reflexivity|].
  rewrite (sizeStr_spec _ _ Hin). cbn [mbind completion_bind].
  destruct (fileType_spec _ _ Hin) as (b & -> & Hb).
  cbn [mbind completion_bind mret completion_ret].
  unfold after_header, header_size, emitted_entry. rewrite Hb.
  destruct Hin as [H0 H1].
  destruct (is_regular_file _ _ _) eqn:Hreg.
  - assert (0 < fileSize_of (Header.size_chars buffer (offset st))) as Hpos.
    { unfold is_regular_file in Hreg.
      apply andb_prop in Hreg as [Hreg _]. apply andb_prop in Hreg as [Hreg _].
      by apply Z.ltb_lt. }
    rewrite slice_payload by lia. cbn. reflexivity.
  - cbn. reflexivity.
Qed.

Lemma isEnd_loop_negative buffer off n :
  off < 0 -> isEnd_loop buffer off 0 (S n) = Throw RangeError.
Proof.
  intros Hneg. cbn [isEnd_loop].
  assert (0 <= byteLength buffer) by (unfold byteLength; lia).
  destruct (Z.ltb_spec 0 512); [|lia].
  destruct (Z.ltb_spec (off + 0) (byteLength buffer)); [|lia].
  rewrite getUint8_negative by lia. reflexivity.
Qed.

(** A pass at a negative cursor reads outside the buffer. *)
Lemma loopBody_negative_cursor TD mime buffer st :
  offset st < 0 -> loopBody TD mime buffer st = Throw RangeError.
Proof.
  intros Hneg. unfold loopBody, isEnd.
  change 512%nat with (S 511).
  rewrite isEnd_loop_negative by assumption. reflexivity.
Qed.

Lemma scan_fuel_mono TD mime buffer :
  forall n st r, scan TD mime n buffer st = Some r ->
  forall m, (n <= m)%nat -> scan TD mime m buffer st = Some r.
Proof.
  induction n as [|n IH]; intros st r Hn m Hm; [discriminate|].
  destruct m as [|m]; [lia|].
  cbn [scan] in *.
  destruct (offset st <? byteLength buffer - 512); [|exact Hn].
  destruct (loopBody TD mime buffer st) as [[|st']|e]; try exact Hn.
  apply IH; [exact Hn|lia].
Qed.

Lemma ceil_div_nonneg a : 0 <= a -> 0 <= ceil_div a 512.
Proof.
  intros Ha. unfold ceil_div.
  assert (- a / 512 <= 0); [|lia].
  apply Z.div_le_upper_bound; lia.
Qed.

Lemma ceil_div_round_up a :
  0 <= a -> a <= ceil_div a 512 * 512 < a + 512 /\ (ceil_div a 512 * 512) mod 512 = 0.
Proof.
  intros Ha. unfold ceil_div. split.
  - pose proof (Z.div_mod (- a) 512 ltac:(lia)).
    pose proof (Z.mod_pos_bound (- a) 512 ltac:(lia)). lia.
  - apply Z.mod_mul. lia.
Qed.

Lemma scan_terminates TD mime buffer :
  (forall cursor, 0 <= header_size buffer cursor) ->
  forall st, 0 <= offset st ->
  exists fuel r, scan TD mime fuel buffer st = Some r.
Proof.
  intros Hsizes st.
  remember (Z.to_nat (byteLength buffer - offset st)) as k eqn:Hk.
  revert st Hk. induction k as [k IH] using lt_wf_ind. intros st Hk Hoff.
  destruct (Z.ltb_spec (offset st) (byteLength buffer - 512)) as [Hlt|Hge].
  - assert (Hin : header_in_range buffer (offset st)) by (split; lia).
    pose proof (loopBody_in_range TD mime buffer st Hin) as Hbody.
    destruct (loopBody TD mime buffer st) as [[|st']|e] eqn:Hb.
    + exists 1%nat, (Normal st). cbn [scan].
      destruct (Z.ltb_spec (offset st) (byteLength buffer - 512)); [|lia].
      by rewrite Hb.
    + assert (offset st + 512 <= offset st') as Hadv.
      { destruct (Header.zero_block _ _); [discriminate|].
        destruct (smartDecodeFileName _ _) as [[|c s]|]; try discriminate.
        injection Hbody as ->. cbn [after_header offset].
        pose proof (ceil_div_nonneg _ (Hsizes (offset st))). lia. }
      destruct (IH (Z.to_nat (byteLength buffer - offset st'))) with (st := st')
        as (fuel & r & Hr); [lia|reflexivity|lia|].
      exists (S fuel), r. cbn [scan].
      destruct (Z.ltb_spec (offset st) (byteLength buffer - 512)); [|lia].
      by rewrite Hb.
    + exists 1%nat, (Throw e). cbn [scan].
      destruct (Z.ltb_spec (offset st) (byteLength buffer - 512)); [|lia].
      by rewrite Hb.
  - exists 1%nat, (Normal st). cbn [scan].
    destruct (Z.ltb_spec (offset st) (byteLength buffer - 512)); [lia|done].
Qed.

(** ** The loop *)

Lemma scan_stops_at_test TD mime buffer st fuel :
  byteLength buffer - 512 <= offset st ->
  scan TD mime (S fuel) buffer st = Some (Normal st).
Proof.
  intros Hge. cbn [scan].
  destruct (Z.ltb_spec (offset st) (byteLength buffer - 512)); [lia|done].
Qed.

Lemma scan_stops_at_break TD mime buffer st fuel :
  loopBody TD mime buffer st = Normal Break ->
  scan TD mime (S fuel) buffer st = Some (Normal st).
Proof.
  intros Hb. cbn [scan]. rewrite Hb. by destruct (_ <? _).
Qed.

Lemma scan_next TD mime buffer st st' fuel :
  offset st < byteLength buffer - 512 ->
  loopBody TD mime buffer st = Normal (Next st') ->
  scan TD mime (S fuel) buffer st = scan TD mime fuel buffer st'.
Proof.
  intros Hlt Hb. cbn [scan]. rewrite Hb.
  destruct (Z.ltb_spec (offset st) (byteLength buffer - 512)); [done|lia].
Qed.

Lemma scan_loops_forever TD mime buffer st :
  offset st < byteLength buffer - 512 ->
  loopBody TD mime buffer st = Normal (Next st) ->
  forall fuel, scan TD mime fuel buffer st = None.
Proof.
  intros Hlt Hb fuel. induction fuel as [|fuel IH]; [reflexivity|].
  by rewrite (scan_next _ _ _ _ _ _ Hlt Hb).
Qed.

Lemma extractTar_fuel_mono TD mime buffer files n r :
  extractTar TD mime n buffer files = Some r ->
  forall m, (n <= m)%nat -> extractTar TD mime m buffer files = Some r.
Proof.
  unfold extractTar. intros Hn m Hm.
  destruct (scan TD mime n buffer _) as [scanned|] eqn:Hs; [|discriminate].
  by rewrite (scan_fuel_mono _ _ _ _ _ _ Hs m Hm).
Qed.

(** After a scan that leaves the loop normally, [extractTar] raises exactly
    when the dictionary has no own key. *)
Lemma extractTar_after_scan TD mime buffer files fuel st :
  scan TD mime fuel buffer
    {| offset := 0; processedFiles := 0; extractedFiles := files |}
  = Some (Normal st) ->
  extractTar TD mime fuel buffer files
  = Some (if keys_length (extractedFiles st) =? 0
          then Throw (Error tar_failed_message)
          else Normal (extractedFiles st)).
Proof.
  intros Hs. unfold extractTar. rewrite Hs. cbn.
  by destruct (keys_length (extractedFiles st) =? 0).
Qed.

(** A scan that throws makes [extractTar] raise its one error. *)
Lemma extractTar_after_throw TD mime buffer files fuel e :
  scan TD mime fuel buffer
    {| offset := 0; processedFiles := 0; extractedFiles := files |}
  = Some (Throw e) ->
  extractTar TD mime fuel buffer files
  = Some (Throw (Error tar_failed_message)).
Proof. intros Hs. unfold extractTar. by rewrite Hs. Qed.

(** A buffer that starts with a zero block, or is too short to hold a
    header, raises. *)
Lemma extractTar_zero_block_raises TD mime buffer fuel :
  Header.zero_block buffer 0 = true ->
  extractTar TD mime (S fuel) buffer ∅
  = Some (Throw (Error tar_failed_message)).
Proof.
  intros Hzero.
  rewrite (extractTar_after_scan _ _ _ _ _ Fixtures.start); [reflexivity|].
  change {| offset := 0; processedFiles := 0; extractedFiles := ∅ |}
    with Fixtures.start.
  destruct (Z.lt_ge_cases (offset Fixtures.start) (byteLength buffer - 512))
    as [Hlt|Hge].
  - apply scan_stops_at_break.
    rewrite loopBody_in_range by (split; [reflexivity|exact Hlt]).
    change (offset Fixtures.start) with 0. by rewrite Hzero.
  - by apply scan_stops_at_test.
Qed.

Lemma zero_buffer_raises TD mime (n fuel : nat) :
  extractTar TD mime (S fuel) (repeat Byte.x00 n) ∅
  = Some (Throw (Error tar_failed_message)).
Proof.
  apply extractTar_zero_block_raises.
  unfold Header.zero_block, Header.field. cbn [Z.to_nat Nat.add drop].
  apply forallb_forall. intros b Hb.
  apply list_elem_of_In, elem_of_take in Hb as (i & Hb & _).
  rewrite lookup_drop in Hb.
  apply list_elem_of_lookup_2, list_elem_of_In, repeat_spec in Hb.
  by rewrite Hb.
Qed.

(** Without negative sizes every pass moves the cursor forward by the header
    and the payload rounded up to whole blocks. *)
Lemma pass_advances TD mime buffer st st' :
  header_in_range buffer (offset st) ->
  loopBody TD mime buffer st = Normal (Next st') ->
  offset st'
  = offset st + 512 + ceil_div (header_size buffer (offset st)) 512 * 512.
Proof.
  intros Hin Hb. rewrite loopBody_in_range in Hb by exact Hin.
  destruct (Header.zero_block _ _); [discriminate|].
  destruct (smartDecodeFileName _ _) as [[|c s]|]; try discriminate.
  by injection Hb as <-.
Qed.

(** ** The dictionary and the progress counter *)

(** A pass that goes on either leaves the dictionary and the counter alone
    or counts one entry and assigns it to its name. *)
Lemma loopBody_effect TD mime buffer st st' :
  loopBody TD mime buffer st = Normal (Next st') ->
  (processedFiles st' = processedFiles st
   /\ extractedFiles st' = extractedFiles st)
  \/ (processedFiles st' = processedFiles st + 1
      /\ exists fileName entry,
          extractedFiles st' = assign (extractedFiles st) fileName entry).
Proof.
  intros Hbody.
  destruct (Z.lt_ge_cases (offset st) 0) as [Hneg|Hpos].
  { by rewrite loopBody_negative_cursor in Hbody. }
  unfold loopBody in Hbody.
  destruct (isEnd buffer (offset st)) as [[|]|]; try discriminate.
  cbn [mbind completion_bind] in Hbody.
  destruct (fileNameBytes buffer (offset st)); [|discriminate].
  cbn [mbind completion_bind] in Hbody.
  destruct (smartDecodeFileName TD _) as [[|c s]|]; try discriminate.
  cbn [mbind completion_bind] in Hbody.
  destruct (sizeStr buffer (offset st)); [|discriminate].
  cbn [mbind completion_bind] in Hbody.
  destruct (getUint8 buffer (offset st + 156)); [|discriminate].
  cbn [mbind completion_bind mret completion_ret] in Hbody.
  injection Hbody as <-.
  destruct (is_regular_file _ _ _); cbn [processedFiles extractedFiles].
  - right. split; [reflexivity|]. by eexists _, _.
  - by left.
Qed.

Lemma loopBody_counts_entries TD mime buffer st st' :
  loopBody TD mime buffer st = Normal (Next st') ->
  counts_entries st -> counts_entries st'.
Proof.
  intros Hbody [Hnonneg Hzero]. unfold counts_entries.
  destruct (loopBody_effect _ _ _ _ _ Hbody)
    as [[Hp Hf]|(Hp & fileName & entry & Hf)]; rewrite Hp, Hf.
  - by split.
  - split; lia.
Qed.

Lemma scan_counts_entries TD mime buffer fuel :
  forall st st',
    scan TD mime fuel buffer st = Some (Normal st') ->
    counts_entries st -> counts_entries st'.
Proof.
  induction fuel as [|fuel IH]; intros st st' Hscan Hst; [discriminate|].
  cbn [scan] in Hscan.
  destruct (offset st <? byteLength buffer - 512).
  - destruct (loopBody TD mime buffer st) as [[|st1]|e] eqn:Hbody.
    + by injection Hscan as <-.
    + eapply IH; [exact Hscan|].
      by eapply loopBody_counts_entries.
    + discriminate.
  - by injection Hscan as <-.
Qed.

(** When the scan leaves the loop normally, [extractTar] raises exactly when
    the dictionary holds no entry, and returns the dictionary otherwise; a
    counter that is still zero means an empty dictionary. *)
Lemma extractTar_raises_iff_nothing_emitted TD mime buffer fuel st :
  scan TD mime fuel buffer
    {| offset := 0; processedFiles := 0; extractedFiles := ∅ |}
  = Some (Normal st) ->
  (extractedFiles st = ∅ ->
   extractTar TD mime fuel buffer ∅ = Some (Throw (Error tar_failed_message)))
  /\ (extractedFiles st <> ∅ ->
      extractTar TD mime fuel buffer ∅ = Some (Normal (extractedFiles st)))
  /\ (processedFiles st = 0 -> extractedFiles st = ∅).
Proof.
  intros Hscan.
  rewrite (extractTar_after_scan _ _ _ _ _ _ Hscan).
  destruct (scan_counts_entries _ _ _ _ _ _ Hscan) as [Hnonneg Hzero].
  { by split. }
  unfold keys_length. split; [|split; [|exact Hzero]].
  - intros Hempty. by rewrite Hempty.
  - intros Hsome.
    destruct (Z.eqb_spec (Z.of_nat (size (extractedFiles st))) 0) as [Hsize|];
      [|reflexivity].
    exfalso. apply Hsome. apply map_size_empty_iff. lia.
Qed.

(** ** Which headers produce an entry *)

Lemma is_regular_file_spec fileSize fileName flag :
  is_regular_file fileSize fileName flag = true
  <-> (flag = 0 \/ flag = 48) /\ endsWith fileName 47 = false /\ 0 < fileSize.
Proof.
  unfold is_regular_file.
  rewrite !andb_true_iff, orb_true_iff, negb_true_iff, Z.ltb_lt, !Z.eqb_eq.
  tauto.
Qed.

Lemma payload_complete buffer cursor size :
  0 <= cursor -> 0 <= size -> cursor + 512 + size <= byteLength buffer ->
  byteLength (Header.payload buffer cursor size) = size.
Proof.
  intros Hc Hs Hfit. rewrite payload_length by lia. lia.
Qed.


(** X19. A header that the scan reads and whose decoded name is not
    [__proto__] produces an entry exactly when its type flag is 0 or 48,
    its decoded name is not empty and does not end in a slash, and its
    octal size is positive. The entry is stored under the name, and its
    content is the [size] bytes that follow the 512-byte header. A header
    that meets the conditions under the name [__proto__] is counted but
    leaves the dictionary as it is. The archive with the one file a.txt
    holding hello, followed by a zero block, yields exactly the entry
    (a.txt, hello). *)
Theorem regular_files_are_emitted :
  (forall TD mime buffer st fileName,
      header_in_range buffer (offset st) ->
      Header.zero_block buffer (offset st) = false ->
      smartDecodeFileName TD (Header.name_bytes buffer (offset st))
      = Normal fileName ->
      let cursor := offset st in
      let fileSize := header_size buffer cursor in
      let flag := Header.type_flag buffer cursor in
      let regular :=
        (flag = 0 \/ flag = 48) /\ fileName <> []
        /\ endsWith fileName 47 = false /\ 0 < fileSize in
      (regular ->
       exists st',
         loopBody TD mime buffer st = Normal (Next st')
         /\ processedFiles st' = processedFiles st + 1
         /\ (fileName <> lit "__proto__" ->
             extractedFiles st'
             = <[fileName :=
                   {| entry_name := split_pop 47 fileName;
                      entry_path := fileName;
                      entry_size :=
                        byteLength (Header.payload buffer cursor fileSize);
                      entry_type := mime fileName;
                      entry_content :=
                        Header.payload buffer cursor fileSize |}]>
                 (extractedFiles st)
             /\ entry_content <$> extractedFiles st' !! fileName
                = Some (Header.payload buffer cursor fileSize))
         /\ (fileName = lit "__proto__" ->
             extractedFiles st' = extractedFiles st)
         /\ (cursor + 512 + fileSize <= byteLength buffer ->
             byteLength (Header.payload buffer cursor fileSize) = fileSize))
      /\ (~ regular ->
          loopBody TD mime buffer st = Normal Break
          \/ exists st',
              loopBody TD mime buffer st = Normal (Next st')
              /\ processedFiles st' = processedFiles st
              /\ extractedFiles st' = extractedFiles st))
  /\ (forall legacy mime fuel,
        (2 <= fuel)%nat ->
        extractTar (TextDecoder_decode legacy) mime fuel Fixtures.one_file ∅
        = Some (Normal
                  {[ lit "a.txt" :=
                       {| entry_name := lit "a.txt";
                          entry_path := lit "a.txt";
                          entry_size := 5;
                          entry_type := mime (lit "a.txt");
                          entry_content := Fixtures.bytes "hello" |} ]})).
Proof.
  split.
  - intros TD mime buffer st fileName Hin Hzero Hname cursor fileSize flag regular.
    pose proof (loopBody_in_range TD mime buffer st Hin) as Hbody.
    rewrite Hzero, Hname in Hbody.
    split.
    + intros (Hflag & Hne & Hslash & Hpos).
      destruct fileName as [|c s]; [done|].
      exists (after_header mime buffer st (c :: s)).
      split; [exact Hbody|].
      unfold after_header.
      replace (is_regular_file _ _ _) with true
        by (symmetry; by apply is_regular_file_spec).
      cbn [processedFiles extractedFiles]. unfold assign.
      split; [reflexivity|]. split; [|split].
      * intros Hproto. rewrite bool_decide_eq_false_2 by exact Hproto.
        split; [reflexivity|]. by rewrite lookup_insert_eq.
      * intros Hproto. by rewrite bool_decide_eq_true_2 by exact Hproto.
      * intros Hfit. destruct Hin. apply payload_complete; subst cursor; lia.
    + intros Hnot.
      destruct fileName as [|c s]; [by left|]. right.
      exists (after_header mime buffer st (c :: s)).
      split; [exact Hbody|].
      unfold after_header.
      destruct (is_regular_file _ _ _) eqn:Hreg; [|done].
      exfalso. apply Hnot. apply is_regular_file_spec in Hreg.
      unfold regular. intuition congruence.
  - intros legacy mime fuel Hfuel.
    apply extractTar_fuel_mono with (n := 2%nat); [|exact Hfuel].
    vm_compute; reflexivity.
Qed.

Lemma regular_files_are_emitted_witness :
  exists st',
    loopBody (TextDecoder_decode Fixtures.no_legacy) Fixtures.no_mime
      Fixtures.one_file Fixtures.start = Normal (Next st')
    /\ processedFiles st' = 1.
Proof.
  destruct (proj1 regular_files_are_emitted
              (TextDecoder_decode Fixtures.no_legacy) Fixtures.no_mime
              Fixtures.one_file Fixtures.start (lit "a.txt"))
    as [Hemit _].
  - split; by vm_compute.
  - by vm_compute.
  - by vm_compute.
  - destruct Hemit as (st' & Hbody & Hcount & _).
    + repeat split; try (by vm_compute). right. by vm_compute.
    + exists st'. split; [exact Hbody|exact Hcount].
Defined.

(** C1. A regular file is not always emitted. The header of this archive
    has the type flag 48, the name [__proto__], which is not empty and does
    not end in a slash, and the size 5, and the five bytes of hello follow
    it. The pass counts the file, but the assignment
    [extractedFiles[fileName] = ...] with this name runs the setter that
    the object inherits instead of creating a property: the dictionary has
    no key, and [extractTar] raises its error as for an archive without
    files. *)
Theorem extractTar_drops_entry_named_proto :
  forall legacy mime,
    let TD := TextDecoder_decode legacy in
    let buffer := Fixtures.proto_file in
    (Header.zero_block buffer 0 = false
     /\ smartDecodeFileName TD (Header.name_bytes buffer 0)
        = Normal (lit "__proto__")
     /\ Header.type_flag buffer 0 = 48
     /\ endsWith (lit "__proto__") 47 = false
     /\ header_size buffer 0 = 5
     /\ Header.payload buffer 0 5 = Fixtures.bytes "hello")
    /\ loopBody TD mime buffer Fixtures.start
       = Normal (Next {| offset := 1024; processedFiles := 1;
                         extractedFiles := ∅ |})
    /\ forall fuel,
        extractTar TD mime (2 + fuel) buffer ∅
        = Some (Throw (Error tar_failed_message)).
Proof.
  intros legacy mime TD buffer.
  split; [repeat split; vm_compute; reflexivity|].
  split; [vm_compute; reflexivity|].
  intros fuel.
  apply extractTar_fuel_mono with (n := 2%nat); [|lia].
  vm_compute; reflexivity.
Qed.



(** ** Negative size fields *)

(** C2. The scan does not terminate on every buffer. [parseInt] accepts a
    minus sign, so the size field [-1000] reads as minus 512; the pass over
    that header moves the cursor by 512 - 512 = 0 bytes, and the scan reads
    the same header again without end. *)
Theorem extractTar_negative_size_never_returns :
  forall legacy mime,
    Header.size_chars Fixtures.negative_size 0 = lit "-1000"
    /\ header_size Fixtures.negative_size 0 = -512
    /\ loopBody (TextDecoder_decode legacy) mime Fixtures.negative_size
         Fixtures.start
       = Normal (Next Fixtures.start)
    /\ forall fuel,
        extractTar (TextDecoder_decode legacy) mime fuel
          Fixtures.negative_size ∅
        = None.
Proof.
  intros legacy mime.
  assert (loopBody (TextDecoder_decode legacy) mime Fixtures.negative_size
            Fixtures.start = Normal (Next Fixtures.start)) as Hbody
    by (by vm_compute).
  split; [by vm_compute|].
  split; [by vm_compute|].
  split; [exact Hbody|].
  intros fuel. unfold extractTar.
  change {| offset := 0; processedFiles := 0; extractedFiles := ∅ |}
    with Fixtures.start.
  assert (offset Fixtures.start < byteLength Fixtures.negative_size - 512)
    as Htest by (by vm_compute).
  by rewrite (scan_loops_forever _ _ _ _ Htest Hbody fuel).
Qed.

(** C4. [extractTar] can raise after it has emitted an entry. The second
    header of this archive has the size field [-4000], minus 2048: the pass
    over it leaves the cursor at minus 512, the next read is outside the
    buffer, and the [RangeError] is reported as the one error of
    [extractTar] although a.txt is in the dictionary. *)
Theorem extractTar_raises_after_emitting :
  forall legacy mime,
    let TD := TextDecoder_decode legacy in
    let buffer := Fixtures.file_then_negative in
    let files : gmap jsstring FileEntry :=
      {[ lit "a.txt" :=
           {| entry_name := lit "a.txt";
              entry_path := lit "a.txt";
              entry_size := 5;
              entry_type := mime (lit "a.txt");
              entry_content := Fixtures.bytes "hello" |} ]} in
    let st1 :=
      {| offset := 1024; processedFiles := 1; extractedFiles := files |} in
    let st2 :=
      {| offset := -512; processedFiles := 1; extractedFiles := files |} in
    loopBody TD mime buffer Fixtures.start = Normal (Next st1)
    /\ header_size buffer (offset st1) = -2048
    /\ loopBody TD mime buffer st1 = Normal (Next st2)
    /\ loopBody TD mime buffer st2 = Throw RangeError
    /\ forall fuel,
        extractTar TD mime (3 + fuel) buffer ∅
        = Some (Throw (Error tar_failed_message)).
Proof.
  intros legacy mime TD buffer files st1 st2.
  split; [vm_compute; reflexivity|].
  split; [vm_compute; reflexivity|].
  split; [vm_compute; reflexivity|].
  split; [vm_compute; reflexivity|].
  intros fuel.
  apply extractTar_fuel_mono with (n := 3%nat); [|lia].
  vm_compute; reflexivity.
Qed.

(* ===================================================================== *)
(** * Properties of the name decoder and of the size field                *)
(* ===================================================================== *)

(** ** The decoders *)

Lemma u8_bounds b : 0 <= u8 b <= 255.
Proof.
  unfold u8. pose proof (Byte.to_N_bounded b). lia.
Qed.

Lemma isAscii_spec bytes :
  isAscii bytes = true <-> Forall (fun b => u8 b <= 127) bytes.
Proof.
  unfold isAscii. rewrite forallb_forall, Forall_forall.
  split; intros H b Hb; specialize (H b).
  - apply list_elem_of_In in Hb. specialize (H Hb).
    apply negb_true_iff, Z.ltb_ge in H. exact H.
  - apply negb_true_iff, Z.ltb_ge. apply H. by apply list_elem_of_In.
Qed.

Lemma windows_1252_decode_ascii bytes :
  Forall (fun b => u8 b <= 127) bytes ->
  windows_1252_decode bytes = u8 <$> bytes.
Proof.
  unfold windows_1252_decode.
  induction 1 as [|b bytes Hb _ IH]; [reflexivity|].
  rewrite !fmap_cons, IH. f_equal. unfold windows_1252_code_point.
  destruct (Z.leb_spec (u8 b) 127); [reflexivity|lia].
Qed.



Lemma TextDecoder_ascii legacy fatal bytes :
  TextDecoder_decode legacy "ascii" fatal bytes
  = Normal (windows_1252_decode bytes).
Proof. reflexivity. Qed.

Lemma TextDecoder_latin1 legacy fatal bytes :
  TextDecoder_decode legacy "latin1" fatal bytes
  = Normal (windows_1252_decode bytes).
Proof. reflexivity. Qed.

Lemma TextDecoder_utf8 legacy fatal bytes :
  TextDecoder_decode legacy "utf-8" fatal bytes = utf8_decode fatal bytes.
Proof. reflexivity. Qed.

(** On a browser [smartDecodeFileName] returns a string for every input. *)
Lemma smartDecodeFileName_returns legacy bytes :
  exists s, smartDecodeFileName (TextDecoder_decode legacy) bytes = Normal s.
Proof.
  unfold smartDecodeFileName.
  destruct (isAscii bytes); [by eexists|].
  destruct (TextDecoder_decode legacy "utf-8" true bytes); [by eexists|].
  destruct (tryEncodings _ _ _); by eexists.
Qed.

(** ** The replacement ratio *)

Lemma count_matches_bounds c s :
  0 <= count_matches c s <= Z.of_nat (List.length s).
Proof.
  unfold count_matches. pose proof (length_filter (fun x => bool_decide (x = c)) s). 
  lia.
Qed.

Lemma ratio_below_tenth_spec decoded :
  ratio_below_tenth (count_matches 0xFFFD decoded)
    (Z.of_nat (List.length decoded)) = true
  <-> low_replacement_ratio decoded.
Proof.
  unfold ratio_below_tenth, low_replacement_ratio.
  destruct decoded as [|c s].
  - cbn. split; [discriminate|]. by intros [? _].
  - set (n := count_matches 65533 (c :: s)).
    set (len := List.length (c :: s)).
    assert (0 < Z.of_nat len) as Hlen by (subst len; cbn [List.length]; lia).
    destruct (Z.eqb_spec (Z.of_nat len) 0) as [|_]; [lia|].
    rewrite Z.ltb_lt.
    assert ((inject_Z n / inject_Z (Z.of_nat len) < 1 # 10)%Q <-> 10 * n < Z.of_nat len) as ->.
    { destruct (Z.of_nat len) as [|p|p] eqn:Hp; try lia.
      unfold Qlt, Qdiv, Qmult, Qinv, inject_Z. cbn. lia. }
    split; [by split|by intros [_ ?]].
Qed.

(** ** The legacy stage *)

Lemma tryEncodings_accept TD enc rest bytes decoded :
  TD enc false bytes = Normal decoded ->
  low_replacement_ratio decoded ->
  tryEncodings TD (enc :: rest) bytes = Some decoded.
Proof.
  intros Hdec Hratio. cbn [tryEncodings]. rewrite Hdec.
  apply ratio_below_tenth_spec in Hratio. by rewrite Hratio.
Qed.

Lemma tryEncodings_skip TD enc rest bytes :
  ~ accepted (TD enc false bytes) ->
  tryEncodings TD (enc :: rest) bytes = tryEncodings TD rest bytes.
Proof.
  intros Hnot. cbn [tryEncodings].
  destruct (TD enc false bytes) as [decoded|e]; [|reflexivity].
  destruct (ratio_below_tenth _ _) eqn:Hratio; [|reflexivity].
  exfalso. apply Hnot. exists decoded. split; [reflexivity|].
  by apply ratio_below_tenth_spec.
Qed.

Lemma tryEncodings_skip_empty TD enc rest bytes :
  TD enc false bytes = Normal [] ->
  tryEncodings TD (enc :: rest) bytes = tryEncodings TD rest bytes.
Proof. intros Hdec. cbn [tryEncodings]. by rewrite Hdec. Qed.

Lemma tryEncodings_first TD bytes pre enc post decoded :
  Forall (fun l => ~ accepted (TD l false bytes)) pre ->
  TD enc false bytes = Normal decoded ->
  low_replacement_ratio decoded ->
  tryEncodings TD (pre ++ enc :: post) bytes = Some decoded.
Proof.
  intros Hpre Hdec Hratio. induction Hpre as [|l pre Hl _ IH].
  - by apply tryEncodings_accept.
  - cbn [app]. by rewrite tryEncodings_skip.
Qed.

Lemma tryEncodings_none TD bytes encs :
  Forall (fun l => ~ accepted (TD l false bytes)) encs ->
  tryEncodings TD encs bytes = None.
Proof.
  induction 1 as [|l encs Hl _ IH]; [reflexivity|].
  by rewrite tryEncodings_skip.
Qed.

Lemma smartDecodeFileName_legacy_stage TD bytes e :
  ~ Forall (fun b => u8 b <= 127) bytes ->
  TD "utf-8"%string true bytes = Throw e ->
  smartDecodeFileName TD bytes
  = match tryEncodings TD encodings bytes with
    | Some decoded => Normal decoded
    | None => TD "latin1"%string false bytes
    end.
Proof.
  intros Hascii Hutf8. unfold smartDecodeFileName.
  destruct (isAscii bytes) eqn:Ha.
  - exfalso. apply Hascii. by apply isAscii_spec.
  - by rewrite Hutf8.
Qed.

(** ** Parsing the size field *)

Lemma octal_digit_not_whitespace c :
  Header.is_octal_digit c -> is_whitespace c = false.
Proof.
  unfold Header.is_octal_digit. intros Hc.
  destruct (is_whitespace c) eqn:E; [|reflexivity].
  unfold is_whitespace in E.
  rewrite !orb_true_iff, andb_true_iff, !Z.eqb_eq, !Z.leb_le in E. lia.
Qed.

Lemma trimStart_keeps c s :
  is_whitespace c = false -> trimStart (c :: s) = c :: s.
Proof. intros Hc. cbn [trimStart]. by rewrite Hc. Qed.

Lemma trimStart_keeps_last l c :
  is_whitespace c = false -> exists l', trimStart (l ++ [c]) = l' ++ [c].
Proof.
  intros Hc. induction l as [|x l IH].
  - exists []. cbn. by rewrite Hc.
  - cbn [app trimStart]. destruct (is_whitespace x).
    + exact IH.
    + by exists (x :: l).
Qed.

Lemma trimStart_all_kept l :
  Forall (fun c => is_whitespace c = false) l -> trimStart l = l.
Proof. destruct 1 as [|c l Hc _]; [reflexivity|by apply trimStart_keeps]. Qed.

Lemma trim_keeps_head c s :
  is_whitespace c = false -> exists s', trim (c :: s) = c :: s'.
Proof.
  intros Hc. unfold trim, trimEnd. rewrite (trimStart_keeps _ _ Hc).
  cbn [rev].
  destruct (trimStart_keeps_last (rev s) c Hc) as [l' ->].
  exists (rev l'). rewrite rev_app_distr. reflexivity.
Qed.

Lemma trim_no_whitespace s :
  Forall (fun c => is_whitespace c = false) s -> trim s = s.
Proof.
  intros Hs. unfold trim, trimEnd.
  rewrite (trimStart_all_kept _ Hs).
  rewrite trimStart_all_kept; [apply rev_involutive|].
  apply Forall_forall. intros c Hc.
  rewrite Forall_forall in Hs. apply Hs.
  apply list_elem_of_In. apply list_elem_of_In in Hc. by apply in_rev.
Qed.

Lemma radix_digits_octal digits :
  Forall Header.is_octal_digit digits ->
  radix_digits 8 digits = (fun c => c - 48) <$> digits.
Proof.
  induction 1 as [|c digits Hc _ IH]; [reflexivity|].
  unfold Header.is_octal_digit in Hc.
  cbn [radix_digits]. unfold digit_value.
  destruct (Z.leb_spec 48 c); [|lia].
  destruct (Z.leb_spec c 57); [|lia]. cbn [andb].
  destruct (Z.ltb_spec (c - 48) 8); [|lia].
  by rewrite IH, fmap_cons.
Qed.

Lemma digits_value_octal digits acc :
  fold_left (fun a d => a * 8 + d) ((fun c => c - 48) <$> digits) acc
  = Header.octal_value_aux acc digits.
Proof.
  revert acc. induction digits as [|c digits IH]; intros acc; [reflexivity|].
  rewrite fmap_cons. cbn [fold_left Header.octal_value_aux].
  rewrite IH. f_equal. lia.
Qed.

Lemma parseInt_radix_8 s :
  parseInt s 8
  = match radix_digits 8
            (match trimStart s with
             | c :: rest => if (c =? 43) || (c =? 45) then rest else trimStart s
             | [] => []
             end) with
    | [] => NaN
    | ds => Num ((match trimStart s with
                  | c :: _ => if c =? 45 then -1 else 1
                  | [] => 1
                  end) * digits_value 8 ds)
    end.
Proof. reflexivity. Qed.

Lemma parseInt_octal digits :
  digits <> [] -> Forall Header.is_octal_digit digits ->
  parseInt (trim digits) 8 = Num (Header.octal_value digits).
Proof.
  intros Hne Hoct.
  assert (Forall (fun c => is_whitespace c = false) digits) as Hws.
  { eapply Forall_impl; [exact Hoct|]. apply octal_digit_not_whitespace. }
  rewrite (trim_no_whitespace _ Hws).
  destruct digits as [|c digits]; [done|].
  rewrite parseInt_radix_8, (trimStart_all_kept _ Hws).
  pose proof (Forall_inv Hoct) as Hc. unfold Header.is_octal_digit in Hc.
  destruct (Z.eqb_spec c 45); [lia|].
  destruct (Z.eqb_spec c 43); [lia|].
  cbn [orb].
  rewrite (radix_digits_octal _ Hoct).
  rewrite fmap_cons. unfold digits_value, Header.octal_value.
  rewrite <- digits_value_octal. rewrite fmap_cons.
  destruct (fold_left _ _ _); reflexivity.
Qed.

Lemma parseInt_not_a_number c s :
  is_whitespace c = false -> c <> 43 -> c <> 45 ->
  ~ Header.is_octal_digit c ->
  parseInt (trim (c :: s)) 8 = NaN.
Proof.
  intros Hws Hplus Hminus Hoct.
  destruct (trim_keeps_head c s Hws) as [s' ->].
  rewrite parseInt_radix_8, (trimStart_keeps _ _ Hws).
  destruct (Z.eqb_spec c 45); [lia|].
  destruct (Z.eqb_spec c 43); [lia|].
  cbn [orb radix_digits]. unfold digit_value, Header.is_octal_digit in *.
  repeat match goal with
         | |- context [?a <=? ?b] => destruct (Z.leb_spec a b); cbn [andb]
         | |- context [?a <? ?b] => destruct (Z.ltb_spec a b)
         end; try reflexivity; lia.
Qed.

(** ** The name decoder *)

(** C6. A byte sequence whose bytes are all at most 127 is returned from the
    ASCII check: the result is what the decoder for the label [ascii] gives,
    whatever the other decoders of the platform would do, and on a browser
    it is the string with one code unit per byte, equal to the byte. *)
Theorem ascii_names_decode_unchanged :
  forall bytes,
    Forall (fun b => u8 b <= 127) bytes ->
    (forall TD,
        smartDecodeFileName TD bytes = TD "ascii"%string false bytes)
    /\ (forall legacy,
          smartDecodeFileName (TextDecoder_decode legacy) bytes
          = Normal (u8 <$> bytes)).
Proof.
  intros bytes Hascii.
  assert (forall TD,
             smartDecodeFileName TD bytes = TD "ascii"%string false bytes)
    as Hcheck.
  { intros TD. unfold smartDecodeFileName.
    by rewrite (proj2 (isAscii_spec bytes) Hascii). }
  split; [exact Hcheck|].
  intros legacy. rewrite Hcheck, TextDecoder_ascii.
  by rewrite windows_1252_decode_ascii.
Qed.

Lemma ascii_names_decode_unchanged_witness :
  smartDecodeFileName (TextDecoder_decode Fixtures.no_legacy)
    (Fixtures.bytes "a.txt")
  = Normal (lit "a.txt").
Proof.
  apply (ascii_names_decode_unchanged (Fixtures.bytes "a.txt")).
  repeat constructor; by vm_compute.
Defined.

Lemma count_matches_replacement_count decoded :
  count_matches 0xFFFD decoded = Z.of_nat (replacement_count decoded).
Proof.
  unfold count_matches. f_equal.
  induction decoded as [|c decoded IH]; [reflexivity|].
  rewrite filter_cons. cbn [replacement_count].
  destruct (Z.eqb_spec c 0xFFFD) as [Heq|Hneq].
  - rewrite decide_True by (by apply bool_decide_pack).
    cbn [List.length]. by rewrite IH.
  - rewrite decide_False; [exact IH|].
    intros Hc. by apply bool_decide_unpack in Hc.
Qed.

Lemma few_replacements_spec decoded :
  few_replacements decoded <-> low_replacement_ratio decoded.
Proof.
  unfold few_replacements, low_replacement_ratio.
  by rewrite count_matches_replacement_count.
Qed.

Lemma qualifies_spec attempt : qualifies attempt <-> accepted attempt.
Proof.
  unfold qualifies, accepted.
  split; intros (decoded & Hdec & Hratio); exists decoded;
    (split; [exact Hdec|by apply few_replacements_spec]).
Qed.

Lemma none_qualifies
    (TD : string -> bool -> list Byte.byte -> completion jsstring)
    bytes labels :
  Forall (fun l => ~ qualifies (TD l false bytes)) labels ->
  Forall (fun l => ~ accepted (TD l false bytes)) labels.
Proof.
  intros Hnone. eapply Forall_impl; [exact Hnone|].
  intros l Hnot Hacc. by apply Hnot, qualifies_spec.
Qed.

(** C8. When the input is not ASCII and strict UTF-8 decoding throws, the
    labels gbk, gb2312, big5, shift-jis are tried in this order without the
    fatal flag, and the first decoding whose ratio of U+FFFD to its length
    is strictly below one tenth is returned; when none qualifies the result
    is the [latin1] decoding. An empty decoding is skipped, and so is one
    with a tenth or more of U+FFFD. On a browser whose GBK decoder maps the
    bytes C4 E3 to U+4F60, these bytes decode to U+4F60 and not to the two
    characters of the fallback. *)
Theorem legacy_encodings_first_low_ratio :
  encodings = ["gbk"; "gb2312"; "big5"; "shift-jis"]%string
  /\ (forall TD bytes e,
        ~ Forall (fun b => u8 b <= 127) bytes ->
        TD "utf-8"%string true bytes = Throw e ->
        (forall pre enc post decoded,
            encodings = pre ++ enc :: post ->
            Forall (fun l => ~ qualifies (TD l false bytes)) pre ->
            TD enc false bytes = Normal decoded ->
            few_replacements decoded ->
            smartDecodeFileName TD bytes = Normal decoded)
        /\ (Forall (fun l => ~ qualifies (TD l false bytes)) encodings ->
            smartDecodeFileName TD bytes = TD "latin1"%string false bytes))
  /\ (forall TD enc rest bytes decoded,
        TD enc false bytes = Normal decoded ->
        decoded = []
        \/ (List.length decoded <= 10 * replacement_count decoded)%nat ->
        ~ qualifies (TD enc false bytes)
        /\ tryEncodings TD (enc :: rest) bytes = tryEncodings TD rest bytes)
  /\ (forall legacy,
        legacy GBK false [Byte.xc4; Byte.xe3] = Normal [0x4F60] ->
        smartDecodeFileName (TextDecoder_decode legacy) [Byte.xc4; Byte.xe3]
        = Normal [0x4F60]
        /\ TextDecoder_decode legacy "latin1" false [Byte.xc4; Byte.xe3]
           = Normal [0xC4; 0xE3]).
Proof.
  split; [reflexivity|]. split; [|split].
  - intros TD bytes e Hascii Hutf8.
    rewrite (smartDecodeFileName_legacy_stage _ _ _ Hascii Hutf8). split.
    + intros pre enc post decoded -> Hpre Hdec Hratio.
      apply none_qualifies in Hpre. apply few_replacements_spec in Hratio.
      by rewrite (tryEncodings_first _ _ _ _ _ _ Hpre Hdec Hratio).
    + intros Hnone. apply none_qualifies in Hnone.
      by rewrite (tryEncodings_none _ _ _ Hnone).
  - intros TD enc rest bytes decoded Hdec Hmany.
    assert (~ few_replacements decoded) as Hnot.
    { intros [Hne Hratio]. destruct Hmany as [->|Hmany]; [done|].
      destruct decoded as [|c s]; [done|].
      revert Hratio Hmany.
      generalize (replacement_count (c :: s)). intros n.
      cbn [List.length]. intros Hratio Hmany.
      unfold Qlt, Qdiv, Qmult, Qinv, inject_Z in Hratio.
      rewrite Nat2Z.inj_succ in Hratio. unfold Z.succ in Hratio.
      destruct (Z.of_nat (List.length s) + 1) as [|p|p] eqn:Hp; try lia.
      cbn in Hratio. lia. }
    split.
    + rewrite Hdec. intros (d & [= <-] & Hfew). by apply Hnot.
    + apply tryEncodings_skip. intros Hacc. rewrite Hdec in Hacc.
      destruct Hacc as (d & [= <-] & Hlow).
      by apply Hnot, few_replacements_spec.
  - intros legacy Hgbk. split; [|reflexivity].
    unfold smartDecodeFileName.
    replace (isAscii _) with false by (by vm_compute).
    replace (TextDecoder_decode legacy "utf-8" true _)
      with (@Throw (list Z) TypeError) by (by vm_compute).
    change encodings with ("gbk" :: ["gb2312"; "big5"; "shift-jis"])%string.
    rewrite (tryEncodings_accept _ _ _ _ [0x4F60]); [reflexivity| |].
    + exact Hgbk.
    + apply ratio_below_tenth_spec. reflexivity.
Qed.

Lemma legacy_encodings_first_low_ratio_witness :
  smartDecodeFileName (TextDecoder_decode Fixtures.gbk_ni)
    [Byte.xc4; Byte.xe3]
  = Normal [0x4F60].
Proof.
  destruct legacy_encodings_first_low_ratio as (_ & Hfirst & _ & _).
  destruct (Hfirst (TextDecoder_decode Fixtures.gbk_ni)
              [Byte.xc4; Byte.xe3] TypeError) as [Hpick _].
  - intros Hascii. apply isAscii_spec in Hascii. by vm_compute in Hascii.
  - reflexivity.
  - apply (Hpick [] "gbk"%string ["gb2312"; "big5"; "shift-jis"]%string).
    + reflexivity.
    + constructor.
    + reflexivity.
    + split; [discriminate|]. reflexivity.
Defined.



(** ** The size field *)















Lemma starts_with_elem (P : Z -> Prop) s :
  Header.starts_with P s -> exists c, (c ∈ s) /\ P c /\ hd_error s = Some c.
Proof.
  destruct s as [|c s]; [done|]. intros Hc. exists c.
  split; [apply list_elem_of_here|by split].
Qed.








(** ** Where the scan stops *)

(** C3, as amended. While the cursor is inside the buffer the loop stops,
    without throwing, exactly when at most 512 bytes remain, or the block
    at the cursor is all zero, or the decoded name is empty. Otherwise the
    header at the cursor is read and the scan goes on after it. *)
Theorem scan_stop_conditions :
  forall legacy mime buffer st,
    0 <= offset st ->
    let TD := TextDecoder_decode legacy in
    let stops :=
      (offset st <? byteLength buffer - 512) = false
      \/ loopBody TD mime buffer st = Normal Break in
    (stops <->
     byteLength buffer - offset st <= 512
     \/ Header.zero_block buffer (offset st) = true
     \/ smartDecodeFileName TD (Header.name_bytes buffer (offset st))
        = Normal [])
    /\ (stops -> forall fuel, scan TD mime (S fuel) buffer st = Some (Normal st))
    /\ (~ stops ->
        exists fileName,
          fileName <> []
          /\ smartDecodeFileName TD (Header.name_bytes buffer (offset st))
             = Normal fileName
          /\ loopBody TD mime buffer st
             = Normal (Next (after_header mime buffer st fileName))
          /\ forall fuel,
              scan TD mime (S fuel) buffer st
              = scan TD mime fuel buffer (after_header mime buffer st fileName)).
Proof.
  intros legacy mime buffer st Hoff TD stops.
  destruct (Z.ltb_spec (offset st) (byteLength buffer - 512)) as [Hlt|Hge].
  - assert (header_in_range buffer (offset st)) as Hin by (split; lia).
    pose proof (loopBody_in_range TD mime buffer st Hin) as Hbody.
    destruct (smartDecodeFileName_returns legacy
                (Header.name_bytes buffer (offset st))) as [fileName Hname].
    fold TD in Hname. rewrite Hname in Hbody.
    split; [|split].
    + unfold stops. split.
      * intros [Htest|Hbreak]; [discriminate|].
        rewrite Hbreak in Hbody.
        destruct (Header.zero_block _ _); [by right; left|].
        destruct fileName; [by right; right|discriminate].
      * intros [Hshort|[Hzero|Hempty]]; [lia| |]; right; rewrite Hbody.
        -- by rewrite Hzero.
        -- destruct (Header.zero_block _ _); [done|].
           rewrite Hname in Hempty. by injection Hempty as ->.
    + intros [Htest|Hbreak] fuel; [discriminate|].
      by apply scan_stops_at_break.
    + intros Hgo.
      destruct (Header.zero_block _ _); [exfalso; apply Hgo; by right|].
      destruct fileName as [|c s]; [exfalso; apply Hgo; by right|].
      exists (c :: s). split; [done|]. split; [exact Hname|].
      split; [exact Hbody|].
      intros fuel. by apply scan_next.
  - split; [|split].
    + unfold stops. split; [intros _; left; lia|intros _; by left].
    + intros _ fuel. by apply scan_stops_at_test.
    + intros Hgo. exfalso. apply Hgo. by left.
Qed.

Lemma scan_stop_conditions_witness :
  scan (TextDecoder_decode Fixtures.no_legacy) Fixtures.no_mime 1
    Fixtures.lone_header Fixtures.start
  = Some (Normal Fixtures.start).
Proof.
  destruct (scan_stop_conditions Fixtures.no_legacy Fixtures.no_mime
              Fixtures.lone_header Fixtures.start) as (Hiff & Hstop & _).
  - by vm_compute.
  - apply Hstop. apply Hiff. left. by vm_compute.
Defined.

(** C3, as stated, fails on a buffer that holds exactly one header block:
    512 bytes remain at cursor 0, the block is not all zero and its name
    decodes to a.txt, yet the loop test already fails and the header is
    never read. *)
Lemma scan_skips_final_block :
  let TD := TextDecoder_decode Fixtures.no_legacy in
  let buffer := Fixtures.lone_header in
  byteLength buffer - offset Fixtures.start = 512
  /\ Header.zero_block buffer 0 = false
  /\ smartDecodeFileName TD (Header.name_bytes buffer 0)
     = Normal (lit "a.txt")
  /\ (offset Fixtures.start <? byteLength buffer - 512) = false
  /\ (forall fuel,
        scan TD Fixtures.no_mime (S fuel) buffer Fixtures.start
        = Some (Normal Fixtures.start))
  /\ ~ (512 <= byteLength buffer - offset Fixtures.start ->
        Header.zero_block buffer 0 = false ->
        smartDecodeFileName TD (Header.name_bytes buffer 0) <> Normal [] ->
        exists st',
          scan TD Fixtures.no_mime 1 buffer Fixtures.start
          = scan TD Fixtures.no_mime 0 buffer st').
Proof.
  intros TD buffer.
  split; [by vm_compute|]. split; [by vm_compute|].
  split; [by vm_compute|]. split; [by vm_compute|].
  split.
  - intros fuel. apply scan_stops_at_test. by vm_compute.
  - intros Hclaim. destruct Hclaim as [st' Hst'].
    + by vm_compute.
    + by vm_compute.
    + by vm_compute.
    + rewrite scan_stops_at_test in Hst' by (by vm_compute). discriminate.
Qed.

(* ===================================================================== *)
(** * Strict UTF-8 decoding of encoded names                              *)
(* ===================================================================== *)

(** ** Bit operations on small numbers *)

Lemma lor_disjoint a x n :
  0 <= n -> 0 <= x < 2 ^ n -> Z.lor (a * 2 ^ n) x = a * 2 ^ n + x.
Proof.
  intros Hn Hx. rewrite <- Z.add_lor_land.
  assert (Z.land (a * 2 ^ n) x = 0) as ->; [|lia].
  apply Z.bits_inj'. intros i Hi.
  rewrite Z.land_spec, Z.bits_0.
  destruct (Z.lt_ge_cases i n) as [Hlt|Hge].
  - by rewrite Z.mul_pow2_bits_low.
  - rewrite <- (Z.mod_small x (2 ^ n)) by lia.
    rewrite Z.mod_pow2_bits_high by lia. apply andb_false_r.
Qed.

Lemma shiftr_6 c : Z.shiftr c 6 = c / 64.
Proof. by rewrite Z.shiftr_div_pow2. Qed.

Lemma shiftr_12 c : Z.shiftr c 12 = c / 4096.
Proof. by rewrite Z.shiftr_div_pow2. Qed.

Lemma shiftr_18 c : Z.shiftr c 18 = c / 262144.
Proof. by rewrite Z.shiftr_div_pow2. Qed.

Lemma land_0x3F c : Z.land c 0x3F = c mod 64.
Proof. exact (Z.land_ones c 6 ltac:(lia)). Qed.

Lemma land_0x1F c : Z.land c 0x1F = c mod 32.
Proof. exact (Z.land_ones c 5 ltac:(lia)). Qed.

Lemma land_0xF c : Z.land c 0xF = c mod 16.
Proof. exact (Z.land_ones c 4 ltac:(lia)). Qed.

Lemma land_0x7 c : Z.land c 0x7 = c mod 8.
Proof. exact (Z.land_ones c 3 ltac:(lia)). Qed.

Lemma lor_0x80 x : 0 <= x < 64 -> Z.lor 0x80 x = 0x80 + x.
Proof. intros Hx. exact (lor_disjoint 2 x 6 ltac:(lia) ltac:(lia)). Qed.

Lemma shift_in cp x :
  0 <= x < 64 -> Z.lor (Z.shiftl cp 6) x = cp * 64 + x.
Proof.
  intros Hx. rewrite Z.shiftl_mul_pow2 by lia.
  exact (lor_disjoint cp x 6 ltac:(lia) ltac:(lia)).
Qed.

Lemma u8_byte_of z : 0 <= z < 256 -> u8 (Utf8.byte_of z) = z.
Proof.
  intros Hz. unfold u8, Utf8.byte_of.
  destruct (Byte.of_N (Z.to_N z)) as [b|] eqn:Hb.
  - apply Byte.to_of_N in Hb; rewrite Hb. lia.
  - apply Byte.of_N_None_iff in Hb. lia.
Qed.

(** ** The UTF-8 decoder on encoded scalar values *)

Lemma utf8_run_continue fatal st st' b rest :
  utf8_handler st (u8 b) = (st', Res_continue) ->
  utf8_run fatal st (b :: rest) = utf8_run fatal st' rest.
Proof. intros H. cbn [utf8_run]. by rewrite H. Qed.

Lemma utf8_run_code_point fatal st st' b c rest :
  utf8_handler st (u8 b) = (st', Res_code_point c) ->
  utf8_run fatal st (b :: rest) = cons c <$> utf8_run fatal st' rest.
Proof. intros H. cbn [utf8_run]. by rewrite H. Qed.

Lemma handler_ascii b :
  0 <= b <= 0x7F ->
  utf8_handler utf8_initial b = (utf8_initial, Res_code_point b).
Proof.
  intros Hb. unfold utf8_handler. cbn [bytes_needed utf8_initial Z.eqb].
  destruct (Z.leb_spec b 0x7F); [reflexivity|lia].
Qed.

Lemma handler_lead b :
  0xC2 <= b <= 0xF4 ->
  utf8_handler utf8_initial b
  = (if b <=? 0xDF then utf8_lead 1 (b mod 32) 0x80 0xBF
     else if b <=? 0xEF then
       utf8_lead 2 (b mod 16) (if b =? 0xE0 then 0xA0 else 0x80)
         (if b =? 0xED then 0x9F else 0xBF)
     else
       utf8_lead 3 (b mod 8) (if b =? 0xF0 then 0x90 else 0x80)
         (if b =? 0xF4 then 0x8F else 0xBF),
     Res_continue).
Proof.
  intros Hb. unfold utf8_handler.
  cbn [bytes_needed utf8_initial Z.eqb lower_boundary upper_boundary].
  rewrite land_0x1F, land_0xF, land_0x7.
  destruct (Z.leb_spec b 0x7F); [lia|].
  destruct (Z.leb_spec 0xC2 b); [|lia].
  destruct (Z.leb_spec b 0xDF); [reflexivity|]. cbn [andb].
  destruct (Z.leb_spec 0xE0 b); [|lia].
  destruct (Z.leb_spec b 0xEF); [reflexivity|]. cbn [andb].
  destruct (Z.leb_spec 0xF0 b); [|lia].
  destruct (Z.leb_spec b 0xF4); [reflexivity|lia].
Qed.

Lemma handler_continuation st b :
  bytes_needed st <> 0 ->
  lower_boundary st <= b <= upper_boundary st ->
  0 <= b mod 64 < 64 ->
  utf8_handler st b
  = if bytes_seen st + 1 =? bytes_needed st
    then (utf8_initial, Res_code_point (code_point st * 64 + b mod 64))
    else ({| code_point := code_point st * 64 + b mod 64;
             bytes_seen := bytes_seen st + 1;
             bytes_needed := bytes_needed st;
             lower_boundary := 0x80; upper_boundary := 0xBF |},
          Res_continue).
Proof.
  intros Hneeded Hrange Hmod. unfold utf8_handler.
  destruct (Z.eqb_spec (bytes_needed st) 0); [done|].
  destruct (Z.leb_spec (lower_boundary st) b); [|lia].
  destruct (Z.leb_spec b (upper_boundary st)); [|lia].
  cbn [andb negb]. rewrite land_0x3F, shift_in by exact Hmod.
  reflexivity.
Qed.

Lemma encode_code_point_decodes c rest :
  Utf8.is_scalar c ->
  utf8_run true utf8_initial (Utf8.encode_code_point c ++ rest)
  = cons c <$> utf8_run true utf8_initial rest.
Proof.
  intros [Hrange Hsur]. unfold Utf8.encode_code_point.
  rewrite !shiftr_6, !shiftr_12, !shiftr_18, !land_0x3F.
  pose proof (Z.mod_pos_bound c 64 ltac:(lia)) as Hm0.
  pose proof (Z.mod_pos_bound (c / 64) 64 ltac:(lia)) as Hm1.
  pose proof (Z.mod_pos_bound (c / 4096) 64 ltac:(lia)) as Hm2.
  rewrite !lor_0x80 by assumption.
  destruct (Z.leb_spec c 0x7F) as [H1|H1].
  - cbn [app]. apply utf8_run_code_point.
    rewrite u8_byte_of by divlia. apply handler_ascii. divlia.
  - destruct (Z.leb_spec c 0x7FF) as [H2|H2].
    + cbn [app].
      erewrite utf8_run_continue; cycle 1.
      { rewrite u8_byte_of by divlia. rewrite handler_lead by divlia.
        destruct (Z.leb_spec (c / 64 + 192) 223); [reflexivity|divlia]. }
      erewrite utf8_run_code_point; [reflexivity|].
      rewrite u8_byte_of by divlia.
      rewrite handler_continuation; cbn; try divlia.
      do 2 f_equal. divlia.
    + destruct (Z.leb_spec c 0xFFFF) as [H3|H3].
      * cbn [app].
        erewrite utf8_run_continue; cycle 1.
        { rewrite u8_byte_of by divlia. rewrite handler_lead by divlia.
          destruct (Z.leb_spec (c / 4096 + 224) 223); [divlia|].
          destruct (Z.leb_spec (c / 4096 + 224) 239); [reflexivity|divlia]. }
        erewrite utf8_run_continue; cycle 1.
        { rewrite u8_byte_of by divlia.
          rewrite handler_continuation.
          - cbn [bytes_seen utf8_lead bytes_needed Z.add Z.eqb Pos.eqb].
            reflexivity.
          - discriminate.
          - cbn [utf8_lead lower_boundary upper_boundary].
            destruct (Z.eqb_spec (c / 4096 + 224) 224);
              destruct (Z.eqb_spec (c / 4096 + 224) 237); divlia.
          - divlia. }
        erewrite utf8_run_code_point; [reflexivity|].
        rewrite u8_byte_of by divlia.
        rewrite handler_continuation; cbn; try divlia.
        do 2 f_equal. divlia.
      * cbn [app].
        erewrite utf8_run_continue; cycle 1.
        { rewrite u8_byte_of by divlia. rewrite handler_lead by divlia.
          destruct (Z.leb_spec (c / 262144 + 240) 223); [divlia|].
          destruct (Z.leb_spec (c / 262144 + 240) 239); [divlia|reflexivity]. }
        erewrite utf8_run_continue; cycle 1.
        { rewrite u8_byte_of by divlia.
          rewrite handler_continuation.
          - cbn [bytes_seen utf8_lead bytes_needed Z.add Z.eqb Pos.eqb].
            reflexivity.
          - discriminate.
          - cbn [utf8_lead lower_boundary upper_boundary].
            destruct (Z.eqb_spec (c / 262144 + 240) 240);
              destruct (Z.eqb_spec (c / 262144 + 240) 244); divlia.
          - divlia. }
        erewrite utf8_run_continue; cycle 1.
        { rewrite u8_byte_of by divlia.
          rewrite handler_continuation.
          - cbn [bytes_seen utf8_lead bytes_needed Z.add Z.eqb Pos.eqb
                   Pos.add Pos.succ].
            reflexivity.
          - discriminate.
          - cbn. divlia.
          - divlia. }
        erewrite utf8_run_code_point; [reflexivity|].
        rewrite u8_byte_of by divlia.
        rewrite handler_continuation; cbn; try divlia.
        do 2 f_equal. divlia.
Qed.

Lemma utf8_run_encode s :
  Forall Utf8.is_scalar s ->
  utf8_run true utf8_initial (Utf8.encode s) = Normal s.
Proof.
  induction 1 as [|c s Hc _ IH]; [reflexivity|].
  unfold Utf8.encode in *. cbn [flat_map].
  by rewrite encode_code_point_decodes, IH.
Qed.

Lemma utf8_decode_encode s :
  Forall Utf8.is_scalar s ->
  utf8_decode true (Utf8.encode s) = Normal (to_jsstring (strip_bom s)).
Proof.
  intros Hs. unfold utf8_decode. by rewrite utf8_run_encode.
Qed.

Lemma isAscii_app l1 l2 : isAscii (l1 ++ l2) = isAscii l1 && isAscii l2.
Proof. unfold isAscii. apply forallb_app. Qed.

Lemma encode_code_point_not_ascii c :
  Utf8.is_scalar c -> 127 < c -> isAscii (Utf8.encode_code_point c) = false.
Proof.
  intros [Hrange _] Hc. unfold Utf8.encode_code_point.
  rewrite !shiftr_6, !shiftr_12, !shiftr_18.
  destruct (Z.leb_spec c 0x7F); [lia|].
  assert (forall z l, 127 < z < 256 -> isAscii (Utf8.byte_of z :: l) = false)
    as Hlead.
  { intros z l Hz. unfold isAscii. cbn [forallb].
    rewrite u8_byte_of by lia.
    destruct (Z.ltb_spec 127 z); [reflexivity|lia]. }
  destruct (Z.leb_spec c 0x7FF); [apply Hlead; divlia|].
  destruct (Z.leb_spec c 0xFFFF); apply Hlead; divlia.
Qed.

Lemma encode_not_ascii s :
  Forall Utf8.is_scalar s -> Exists (fun c => 127 < c) s ->
  isAscii (Utf8.encode s) = false.
Proof.
  intros Hs Hex. induction Hex as [c s Hc|c s _ IH].
  - unfold Utf8.encode. cbn [flat_map]. rewrite isAscii_app.
    rewrite encode_code_point_not_ascii; [reflexivity| |exact Hc].
    by apply Forall_inv in Hs.
  - unfold Utf8.encode in *. cbn [flat_map]. rewrite isAscii_app.
    rewrite IH; [apply andb_false_r|]. by apply Forall_inv_tail in Hs.
Qed.

(** C7, as amended. For a string [s] of scalar values with a non-ASCII code
    point, decoding the UTF-8 encoding of [s] returns [s] without its
    leading U+FEFF, if it has one; it returns [s] itself when [s] does not
    start with U+FEFF. *)
Theorem utf8_names_round_trip :
  forall legacy s,
    Forall Utf8.is_scalar s ->
    Exists (fun c => 127 < c) s ->
    smartDecodeFileName (TextDecoder_decode legacy) (Utf8.encode s)
    = Normal (to_jsstring (strip_bom s))
    /\ (hd 0 s <> 0xFEFF ->
        smartDecodeFileName (TextDecoder_decode legacy) (Utf8.encode s)
        = Normal (to_jsstring s)).
Proof.
  intros legacy s Hs Hex.
  assert (smartDecodeFileName (TextDecoder_decode legacy) (Utf8.encode s)
          = Normal (to_jsstring (strip_bom s))) as Hdec.
  { unfold smartDecodeFileName.
    rewrite (encode_not_ascii _ Hs Hex), TextDecoder_utf8.
    by rewrite (utf8_decode_encode _ Hs). }
  split; [exact Hdec|].
  intros Hbom. rewrite Hdec. destruct s as [|c s]; [reflexivity|].
  cbn [hd] in Hbom. cbn [strip_bom].
  destruct (Z.eqb_spec c 0xFEFF); [done|reflexivity].
Qed.

Lemma utf8_names_round_trip_witness :
  smartDecodeFileName (TextDecoder_decode Fixtures.no_legacy)
    [Byte.xe4; Byte.xbd; Byte.xa0]
  = Normal [0x4F60].
Proof.
  apply (utf8_names_round_trip Fixtures.no_legacy [0x4F60]).
  - repeat constructor; cbn; lia.
  - constructor. lia.
  - cbn. lia.
Defined.

(** C7, as stated, fails for a string that starts with U+FEFF: the decoder
    is created without [ignoreBOM], so the byte order mark is dropped and
    the result is shorter than the string that was encoded. *)
Lemma utf8_leading_bom_is_dropped :
  let s := [0xFEFF; 0x61] in
  Forall Utf8.is_scalar s
  /\ Exists (fun c => 127 < c) s
  /\ Utf8.encode s = [Byte.xef; Byte.xbb; Byte.xbf; Byte.x61]
  /\ smartDecodeFileName (TextDecoder_decode Fixtures.no_legacy)
       (Utf8.encode s)
     = Normal (lit "a")
  /\ to_jsstring s = [0xFEFF; 0x61]
  /\ smartDecodeFileName (TextDecoder_decode Fixtures.no_legacy)
       (Utf8.encode s)
     <> Normal (to_jsstring s).
Proof.
  intros s.
  split; [repeat constructor; cbn; lia|].
  split; [constructor; lia|].
  split; [reflexivity|].
  split; [reflexivity|].
  split; [reflexivity|].
  discriminate.
Qed.

(* ===================================================================== *)
(** * Further properties: names and extensions                            *)
(* ===================================================================== *)

(** Closes a decidable goal on concrete data by evaluation. *)
Ltac decide_it := apply (bool_decide_unpack _); vm_compute; exact I.

(** ** The last separator of a string *)

Lemma split_pop_aux_no_sep sep s acc :
  sep ∉ s -> split_pop_aux sep s acc = rev acc ++ s.
Proof.
  revert acc. induction s as [|c s IH]; intros acc Hno.
  - cbn. by rewrite app_nil_r.
  - cbn [split_pop_aux].
    destruct (Z.eqb_spec c sep) as [->|Hne]; [set_solver|].
    rewrite IH by set_solver. cbn [rev]. by rewrite <- app_assoc.
Qed.

Lemma split_pop_aux_app sep pre post acc :
  split_pop_aux sep (pre ++ sep :: post) acc = split_pop_aux sep post [].
Proof.
  revert acc. induction pre as [|c pre IH]; intros acc.
  - cbn [app split_pop_aux]. by rewrite Z.eqb_refl.
  - cbn [app split_pop_aux]. destruct (c =? sep); apply IH.
Qed.

Lemma lastIndexOf_from_no_sep sep s i found :
  sep ∉ s -> Str.lastIndexOf_from sep s i found = found.
Proof.
  revert i found. induction s as [|c s IH]; intros i found Hno; [done|].
  cbn [Str.lastIndexOf_from].
  destruct (Z.eqb_spec c sep) as [->|Hne]; [set_solver|].
  apply IH. set_solver.
Qed.

Lemma lastIndexOf_from_app sep pre post i found :
  sep ∉ post ->
  Str.lastIndexOf_from sep (pre ++ sep :: post) i found
  = i + Z.of_nat (List.length pre).
Proof.
  revert i found. induction pre as [|c pre IH]; intros i found Hno.
  - cbn [app Str.lastIndexOf_from List.length]. rewrite Z.eqb_refl.
    rewrite lastIndexOf_from_no_sep by done. lia.
  - cbn [app Str.lastIndexOf_from List.length].
    rewrite IH by done. lia.
Qed.

(** A string either has no separator, or splits at its last one. *)
Lemma last_separator sep (s : list Z) :
  (sep ∉ s) \/ (exists pre post, s = pre ++ sep :: post /\ sep ∉ post).
Proof.
  induction s as [|c s IH].
  - left. apply not_elem_of_nil.
  - destruct IH as [Hno|(pre & post & -> & Hpost)].
    + destruct (Z.eq_dec c sep) as [->|Hne].
      * right. by exists [], s.
      * left. by apply not_elem_of_cons.
    + right. by exists (c :: pre), post.
Qed.

Lemma split_pop_no_sep sep s : sep ∉ s -> split_pop sep s = s.
Proof. intros Hno. unfold split_pop. by rewrite split_pop_aux_no_sep. Qed.

Lemma split_pop_app sep pre post :
  sep ∉ post -> split_pop sep (pre ++ sep :: post) = post.
Proof.
  intros Hno. unfold split_pop.
  by rewrite split_pop_aux_app, split_pop_aux_no_sep.
Qed.

Lemma split_pop_free sep s : sep ∉ split_pop sep s.
Proof.
  destruct (last_separator sep s) as [Hno|(pre & post & -> & Hpost)].
  - by rewrite split_pop_no_sep.
  - by rewrite split_pop_app.
Qed.

(** X1. [s.split(sep).pop()] is the part of [s] after its last separator: it
    holds no separator, [s] ends with it, and it is [s] itself when [s]
    has no separator. So the [name] of a dictionary entry never holds a
    slash, and a path without a dot is its own extension. *)
Theorem split_pop_is_last_segment :
  forall sep s,
    (sep ∉ split_pop sep s)
    /\ (exists front, s = front ++ split_pop sep s)
    /\ (sep ∉ s -> split_pop sep s = s)
    /\ (forall pre post,
          sep ∉ post -> split_pop sep (pre ++ sep :: post) = post).
Proof.
  intros sep s. split; [|split; [|split]].
  - apply split_pop_free.
  - destruct (last_separator sep s) as [Hno|(pre & post & -> & Hpost)].
    + exists []. by rewrite split_pop_no_sep.
    + exists (pre ++ [sep]). rewrite split_pop_app by done.
      by rewrite <- app_assoc.
  - apply split_pop_no_sep.
  - intros pre post. apply split_pop_app.
Qed.

Lemma split_pop_is_last_segment_witness :
  split_pop 47 (lit "docs/img/a.png") = lit "a.png".
Proof.
  apply (proj2 (proj2 (proj2 (split_pop_is_last_segment 47 (lit "x"))))
           (lit "docs/img") (lit "a.png")).
  decide_it.
Defined.

(** ** Removing and reading the extension *)

Lemma extension_chars_spec s :
  Str.extension_chars s = true <-> s <> [] /\ (47 ∉ s) /\ (46 ∉ s).
Proof.
  destruct s as [|c s]; [cbn; split; [discriminate|by intros [? _]]|].
  unfold Str.extension_chars. rewrite forallb_forall. split.
  - intros Hall. split; [done|].
    split; intros Hin; apply list_elem_of_In, Hall in Hin;
      by rewrite ?Z.eqb_refl, ?orb_true_r in Hin.
  - intros (_ & Hslash & Hdot) x Hx. apply list_elem_of_In in Hx.
    destruct (Z.eqb_spec x 47) as [->|_]; [done|].
    destruct (Z.eqb_spec x 46) as [->|_]; done.
Qed.

Lemma strip_extension_no_dot s : 46 ∉ s -> Str.strip_extension s = s.
Proof.
  induction s as [|c s IH]; intros Hno; [done|].
  cbn [Str.strip_extension].
  destruct (Z.eqb_spec c 46) as [->|_]; [set_solver|].
  cbn [andb]. rewrite IH; [done|set_solver].
Qed.

Lemma strip_extension_app pre post :
  46 ∉ post ->
  Str.strip_extension (pre ++ 46 :: post)
  = if Str.extension_chars post then pre else pre ++ 46 :: post.
Proof.
  intros Hpost. induction pre as [|c pre IH].
  - cbn [app Str.strip_extension]. rewrite Z.eqb_refl. cbn [andb].
    destruct (Str.extension_chars post); [done|].
    by rewrite strip_extension_no_dot.
  - cbn [app Str.strip_extension].
    replace (Str.extension_chars (pre ++ 46 :: post)) with false; cycle 1.
    { symmetry. apply not_true_is_false. intros Hchars.
      apply extension_chars_spec in Hchars as (_ & _ & Hdot).
      apply Hdot. set_solver. }
    rewrite andb_false_r, IH. by destruct (Str.extension_chars post).
Qed.

(** X2. [name.replace(/\.[^/.]+$/, '')], which names the archive built by
    [compressFiles] and by [downloadAllFiles], removes exactly what
    [name.split('.').pop()] reads, together with its dot, when that
    extension is not empty and holds no slash; otherwise (no dot, a
    trailing dot, or a last dot inside a directory name) the name is left
    as it is. *)
Theorem strip_extension_removes_last_segment :
  forall name,
    let ext := split_pop 46 name in
    (46 ∈ name -> ext <> [] -> 47 ∉ ext ->
     Str.strip_extension name ++ 46 :: ext = name)
    /\ ((46 ∉ name) \/ ext = [] \/ (47 ∈ ext) ->
        Str.strip_extension name = name).
Proof.
  intros name ext. subst ext.
  destruct (last_separator 46 name) as [Hno|(pre & post & -> & Hpost)].
  - split; [done|]. intros _. by apply strip_extension_no_dot.
  - rewrite split_pop_app, strip_extension_app by done.
    split.
    + intros _ Hne Hslash.
      by rewrite (proj2 (extension_chars_spec post)).
    + intros Hbad.
      destruct (Str.extension_chars post) eqn:Hchars; [|done].
      apply extension_chars_spec in Hchars as (Hne & Hslash & _).
      destruct Hbad as [Hdot|[->|Hin]]; [|done..].
      exfalso. apply Hdot. set_solver.
Qed.

Lemma strip_extension_removes_last_segment_witness :
  Str.strip_extension (lit "archive.tar.gz") ++ 46 :: lit "gz"
  = lit "archive.tar.gz".
Proof.
  apply (proj1 (strip_extension_removes_last_segment (lit "archive.tar.gz")));
    decide_it.
Defined.

(** ** The name of a compressed image *)

Lemma substring_prefix (s : list Z) k :
  0 <= k <= Z.of_nat (List.length s) ->
  Str.substring s 0 k = take (Z.to_nat k) s.
Proof.
  intros Hk. unfold Str.substring.
  rewrite (Z.max_l 0 0), (Z.max_l k 0), (Z.min_l 0), (Z.min_l k) by lia.
  rewrite (Z.min_l 0 k), (Z.max_r 0 k) by lia.
  by rewrite Z.sub_0_r.
Qed.

Lemma substring_from_suffix (s : list Z) k :
  0 <= k <= Z.of_nat (List.length s) ->
  Str.substring_from s k = drop (Z.to_nat k) s.
Proof.
  intros Hk. unfold Str.substring_from, Str.substring.
  set (len := Z.of_nat (List.length s)) in *.
  rewrite (Z.max_l k 0), (Z.max_l len 0), (Z.min_l k len), Z.min_id by lia.
  rewrite (Z.min_l k len), (Z.max_r k len) by lia.
  apply take_ge. rewrite length_drop. lia.
Qed.

Lemma substring_negative_end (s : list Z) : Str.substring s 0 (-1) = [].
Proof.
  unfold Str.substring.
  assert (0 <= Z.of_nat (List.length s)) by lia.
  rewrite (Z.max_l 0 0), (Z.max_r (-1) 0), !(Z.min_l 0), Z.max_id by lia.
  reflexivity.
Qed.

Lemma substring_from_negative (s : list Z) : Str.substring_from s (-1) = s.
Proof.
  unfold Str.substring_from, Str.substring.
  set (len := Z.of_nat (List.length s)).
  assert (0 <= len) by lia.
  rewrite (Z.max_r (-1) 0), (Z.max_l len 0), (Z.min_l 0 len), Z.min_id by lia.
  rewrite (Z.min_l 0 len), (Z.max_r 0 len), Z.sub_0_r by lia.
  apply take_ge. cbn [Z.to_nat drop]. lia.
Qed.

(** X3. The key under which [compressImages] stores an image is the original
    name with the marker (yasuo.zip) put in: the two parts around the
    marker always make up the original name. The marker stands before the
    last dot, and at the very front when the name has no dot. *)
Theorem compressedName_inserts_marker :
  forall originalName,
    exists nameWithoutExt ext,
      compressedName originalName
      = nameWithoutExt ++ lit "(yasuo.zip)" ++ ext
      /\ nameWithoutExt ++ ext = originalName
      /\ (46 ∉ originalName -> nameWithoutExt = [])
      /\ (46 ∈ originalName -> ext = 46 :: split_pop 46 originalName).
Proof.
  intros name. unfold compressedName.
  destruct (last_separator 46 name) as [Hno|(pre & post & -> & Hpost)].
  - exists [], name. unfold Str.lastIndexOf.
    rewrite lastIndexOf_from_no_sep by done.
    rewrite substring_negative_end, substring_from_negative.
    by repeat split.
  - exists pre, (46 :: post). unfold Str.lastIndexOf.
    rewrite lastIndexOf_from_app by done. rewrite Z.add_0_l.
    rewrite substring_prefix, substring_from_suffix
      by (rewrite length_app; cbn [List.length]; lia).
    rewrite Nat2Z.id, take_app_length, drop_app_length.
    rewrite split_pop_app by done.
    repeat split. intros Hno. exfalso. apply Hno. set_solver.
Qed.

Lemma compressedName_inserts_marker_witness :
  compressedName (lit "photo") = lit "(yasuo.zip)photo"
  /\ compressedName (lit "my.photo.png") = lit "my.photo(yasuo.zip).png".
Proof.
  split.
  - destruct (compressedName_inserts_marker (lit "photo"))
      as (front & ext & -> & Hname & Hfront & _).
    rewrite Hfront in * by decide_it. cbn [app] in Hname. by rewrite Hname.
  - destruct (compressedName_inserts_marker (lit "my.photo.png"))
      as (front & ext & -> & Hname & _ & Hext).
    rewrite Hext in * by decide_it.
    change (split_pop 46 (lit "my.photo.png")) with (lit "png") in *.
    change (lit "my.photo.png") with (lit "my.photo" ++ 46 :: lit "png") in Hname.
    apply app_inv_tail in Hname. by rewrite Hname.
Defined.

(** ** getMimeType and getFileIcon *)

Lemma toLowerCase_ascii L s :
  Str.is_ascii s = true -> Str.toLowerCase L s = Str.ascii_lower <$> s.
Proof. intros H. unfold Str.toLowerCase. by rewrite H. Qed.

Lemma extension_of_last_segment L pre post :
  46 ∉ post -> extension L (pre ++ 46 :: post) = Str.toLowerCase L post.
Proof. intros Hno. unfold extension. by rewrite split_pop_app. Qed.

Lemma extension_without_dot L path :
  46 ∉ path -> extension L path = Str.toLowerCase L path.
Proof. intros Hno. unfold extension. by rewrite split_pop_no_sep. Qed.

Lemma own_property_in table key v :
  Obj.own_property table key = Some v -> (key, v) ∈ table.
Proof.
  induction table as [|[k w] table IH]; [discriminate|].
  cbn [Obj.own_property]. case_bool_decide as Hk.
  - intros [= <-]. subst k. by left.
  - intros Hv. right. by apply IH.
Qed.

Lemma or_string_cases table key fallback :
  match Obj.or_string (Obj.get table key) fallback with
  | Obj.VString s =>
      (s <> [] /\ Obj.own_property table key = Some s) \/ s = fallback
  | Obj.VInherited k =>
      k = key /\ (key ∈ Obj.inherited_keys)
      /\ Obj.own_property table key = None
  end.
Proof.
  unfold Obj.get. destruct (Obj.own_property table key) as [[|c s]|].
  - cbn. by right.
  - cbn. by left.
  - case_bool_decide as Hk; cbn; [done|by right].
Qed.

(** Every extension of the table is found under its own MIME type. *)
Lemma mimeTypes_complete L :
  Forall (fun p => forall dir,
              getMimeType L (dir ++ 46 :: p.1) = Obj.VString p.2)
    mimeTypes.
Proof.
  apply Forall_forall. intros [k v] Hin dir.
  assert (Forall (fun p =>
            (46 ∉ p.1) /\ Str.is_ascii p.1 = true
            /\ Obj.or_string (Obj.get mimeTypes (Str.ascii_lower <$> p.1))
                 (lit "application/octet-stream") = Obj.VString p.2)
            mimeTypes) as Hall.
  { unfold mimeTypes. cbn [map].
    repeat (constructor;
            [split; [decide_it|split; vm_compute; reflexivity]|]).
    constructor. }
  rewrite Forall_forall in Hall.
  destruct (Hall _ Hin) as (Hdot & Hascii & Hget). cbn [fst snd] in *.
  unfold getMimeType.
  by rewrite extension_of_last_segment, toLowerCase_ascii.
Qed.

Lemma getMimeType_table L dir ext mime :
  ((ext, mime) ∈ mimeTypes) ->
  getMimeType L (dir ++ 46 :: ext) = Obj.VString mime.
Proof.
  intros Hin. pose proof (mimeTypes_complete L) as Hall.
  rewrite Forall_forall in Hall. exact (Hall _ Hin dir).
Qed.

Lemma ascii_lower_idempotent (s : list Z) :
  Str.ascii_lower <$> (Str.ascii_lower <$> s) = Str.ascii_lower <$> s.
Proof.
  rewrite <- list_fmap_compose. apply list_fmap_ext. intros _ c _. cbn.
  unfold Str.ascii_lower.
  destruct ((65 <=? c) && (c <=? 90)) eqn:Hupper; [|by rewrite Hupper].
  apply andb_prop in Hupper as [Hlow _]. apply Z.leb_le in Hlow.
  assert ((65 <=? c + 32) && (c + 32 <=? 90) = false) as ->; [|reflexivity].
  apply andb_false_iff. right. apply Z.leb_gt. lia.
Qed.

(** The two property names of [Object.prototype] that are written in lower
    case are the only ones that a lowered ASCII extension can be. *)
Lemma lowered_inherited_key (key : list Z) :
  (key ∈ Obj.inherited_keys) ->
  Str.ascii_lower <$> key = key ->
  key = lit "constructor" \/ key = lit "__proto__".
Proof.
  unfold Obj.inherited_keys. cbn [map]. intros Hin Hlow.
  repeat (apply elem_of_cons in Hin as [->|Hin];
          [first [by left | by right
                 | exfalso; vm_compute in Hlow; discriminate Hlow]|]).
  by apply elem_of_nil in Hin.
Qed.

(** X4. [getMimeType] looks only at what follows the last dot of the path (a
    path without a dot is taken as an extension itself), ignores the case
    of ASCII letters, finds every extension of its table, and otherwise
    answers application/octet-stream, except for an extension that is a
    property name of [Object.prototype]: for the ASCII extensions
    constructor and __proto__, in any letter case, the inherited member is
    returned instead of a string, and for no other ASCII extension. It
    never returns the empty string. *)
Theorem getMimeType_by_extension :
  forall L,
    (forall dir ext,
        (46 ∉ ext) ->
        getMimeType L (dir ++ 46 :: ext) = getMimeType L ext)
    /\ (forall ext ext',
          Str.is_ascii ext = true -> Str.is_ascii ext' = true ->
          (46 ∉ ext) -> (46 ∉ ext') ->
          Str.ascii_lower <$> ext = Str.ascii_lower <$> ext' ->
          getMimeType L ext = getMimeType L ext')
    /\ (forall dir ext mime,
          ((ext, mime) ∈ mimeTypes) ->
          getMimeType L (dir ++ 46 :: ext) = Obj.VString mime)
    /\ (forall path,
          match getMimeType L path with
          | Obj.VString mime =>
              mime <> []
              /\ (((extension L path, mime) ∈ mimeTypes)
                  \/ mime = lit "application/octet-stream")
          | Obj.VInherited key =>
              key = extension L path /\ (key ∈ Obj.inherited_keys)
          end)
    /\ (forall dir ext,
          (46 ∉ ext) -> Str.is_ascii ext = true ->
          let key := Str.ascii_lower <$> ext in
          (key = lit "constructor" \/ key = lit "__proto__" ->
           getMimeType L (dir ++ 46 :: ext) = Obj.VInherited key)
          /\ (forall member,
                getMimeType L (dir ++ 46 :: ext) = Obj.VInherited member ->
                member = key
                /\ (key = lit "constructor" \/ key = lit "__proto__"))).
Proof.
  intros L. split; [|split; [|split; [|split]]].
  - intros dir ext Hdot. unfold getMimeType.
    by rewrite extension_of_last_segment, extension_without_dot.
  - intros ext ext' Ha Ha' Hdot Hdot' Hsame. unfold getMimeType.
    rewrite !extension_without_dot, !toLowerCase_ascii by done.
    by rewrite Hsame.
  - intros dir ext mime. apply getMimeType_table.
  - intros path. unfold getMimeType.
    pose proof (or_string_cases mimeTypes (extension L path)
                  (lit "application/octet-stream")) as Hcases.
    destruct (Obj.or_string _ _) as [mime|key].
    + destruct Hcases as [[Hne Hown]|Hdefault].
      * split; [done|]. left. by apply own_property_in.
      * subst mime. split; [done|]. by right.
    + destruct Hcases as (Hkey & Hin & _). by subst key.
  - intros dir ext Hdot Hascii key.
    assert (extension L (dir ++ 46 :: ext) = key) as Hext
      by (by rewrite extension_of_last_segment, toLowerCase_ascii).
    unfold getMimeType. rewrite Hext. split.
    + intros [-> | ->]; vm_compute; reflexivity.
    + intros member Hmember.
      pose proof (or_string_cases mimeTypes key
                    (lit "application/octet-stream")) as Hcases.
      rewrite Hmember in Hcases. destruct Hcases as (-> & Hin & _).
      split; [reflexivity|].
      apply lowered_inherited_key; [exact Hin|].
      apply ascii_lower_idempotent.
Qed.

Lemma getMimeType_by_extension_witness :
  getMimeType (fun s => s) (lit "Holiday.Photos/IMG_1.JPG")
  = Obj.VString (lit "image/jpeg")
  /\ getMimeType (fun s => s) (lit "lib/Widget.Constructor")
     = Obj.VInherited (lit "constructor").
Proof.
  destruct (getMimeType_by_extension (fun s => s))
    as (Hlast & Hcase & Htable & _ & Hinherited).
  split.
  - change (lit "Holiday.Photos/IMG_1.JPG")
      with (lit "Holiday.Photos/IMG_1" ++ 46 :: lit "JPG").
    rewrite Hlast by decide_it.
    rewrite (Hcase (lit "JPG") (lit "jpg")) by (reflexivity || decide_it).
    rewrite <- (Hlast [] (lit "jpg")) by decide_it.
    apply Htable. decide_it.
  - apply (Hinherited (lit "lib/Widget") (lit "Constructor")).
    + decide_it.
    + reflexivity.
    + by left.
Defined.

(** X5. Every path for which [getMimeType] knows a MIME type other than the
    fallback is shown with an icon of its own, not the generic file icon:
    the extensions of [mimeTypes] all occur in [iconMap]. *)
Theorem known_mime_type_has_icon :
  forall L path mime,
    getMimeType L path = Obj.VString mime ->
    mime <> lit "application/octet-stream" ->
    exists icon,
      getFileIcon L path = Obj.VString icon /\ icon <> lit "fas fa-file".
Proof.
  intros L path mime Hmime Hne.
  pose proof (or_string_cases mimeTypes (extension L path)
                (lit "application/octet-stream")) as Hcases.
  unfold getMimeType in Hmime. rewrite Hmime in Hcases.
  destruct Hcases as [[_ Hown]|Hdefault]; [|done].
  apply own_property_in in Hown.
  assert (Forall (fun p =>
            exists icon,
              Obj.or_string (Obj.get iconMap p.1) (lit "fas fa-file")
              = Obj.VString icon /\ icon <> lit "fas fa-file")
            mimeTypes) as Hall.
  { unfold mimeTypes. cbn [map].
    repeat (constructor;
            [eexists; split; [vm_compute; reflexivity|discriminate]|]).
    constructor. }
  rewrite Forall_forall in Hall. exact (Hall _ Hown).
Qed.

Lemma known_mime_type_has_icon_witness :
  exists icon,
    getFileIcon (fun s => s) (lit "report.PDF") = Obj.VString icon
    /\ icon <> lit "fas fa-file".
Proof.
  apply (known_mime_type_has_icon (fun s => s) (lit "report.PDF")
           (lit "application/pdf")).
  - reflexivity.
  - discriminate.
Defined.

(** ** Errors of the extractors *)

Lemma try_catch_error {A} (body : completion A) message e :
  try_catch body (fun _ => Throw (Error message)) = Throw e ->
  e = Error message.
Proof. destruct body; cbn; congruence. Qed.

Lemma extractTar_error TD mime fuel buffer files e :
  extractTar TD mime fuel buffer files = Some (Throw e) ->
  e = Error tar_failed_message.
Proof.
  unfold extractTar.
  destruct (scan _ _ _ _ _) as [scanned|]; [|discriminate].
  intros [= Hcatch]. by apply try_catch_error in Hcatch.
Qed.

Lemma extractZip_error L loadAsync inherited file files e :
  extractZip L loadAsync inherited file files = Throw e ->
  e = Error zip_failed_message.
Proof. unfold extractZip. apply try_catch_error. Qed.

Lemma extractGzip_error L pako inherited file files e :
  extractGzip L pako inherited file files = Throw e ->
  e = Error gzip_failed_message.
Proof. unfold extractGzip. apply try_catch_error. Qed.

(** X6. Each extractor reports one error only. Whatever went wrong inside
    (a read outside the buffer, a decoder or library that throws, an empty
    result, a missing library), [extractTar], [extractZip] and
    [extractGzip] throw an [Error] with their own fixed message; the
    messages for "no valid file found" and "library not loaded" written in
    their bodies never leave them. *)
Theorem extractors_report_one_error :
  (forall TD mime fuel buffer files e,
      extractTar TD mime fuel buffer files = Some (Throw e) ->
      e = Error tar_failed_message /\ e <> Error no_files_message)
  /\ (forall L loadAsync inherited file files e,
        extractZip L loadAsync inherited file files = Throw e ->
        e = Error zip_failed_message)
  /\ (forall L pako inherited file files e,
        extractGzip L pako inherited file files = Throw e ->
        e = Error gzip_failed_message
        /\ e <> Error gzip_not_loaded_message).
Proof.
  split; [|split].
  - intros TD mime fuel buffer files e Hrun.
    apply extractTar_error in Hrun as ->. split; [done|]. by intros [=].
  - intros L loadAsync inherited file files e. apply extractZip_error.
  - intros L pako inherited file files e Hrun.
    apply extractGzip_error in Hrun as ->. split; [done|]. by intros [=].
Qed.

Lemma extractors_report_one_error_witness :
  extractGzip (fun s => s) None (fun s => s)
    {| file_name := lit "a.gz"; file_size := 0; file_type := [];
       file_webkitRelativePath := []; file_bytes := [] |} ∅
  = Throw (Error gzip_failed_message).
Proof.
  destruct extractors_report_one_error as (_ & _ & Hgzip).
  destruct (extractGzip _ _ _ _ _) as [files|e] eqn:Hrun.
  - discriminate.
  - by destruct (Hgzip _ _ _ _ _ _ Hrun) as [-> _].
Defined.

(** ** The format check and the dispatch *)

Lemma supported_extension e :
  Str.includes supportedFormats (46 :: e) = true
  <-> e = lit "zip" \/ e = lit "gz" \/ e = lit "tar".
Proof.
  unfold Str.includes, supportedFormats.
  rewrite bool_decide_eq_true, !elem_of_cons, elem_of_nil.
  change (lit ".zip") with (46 :: lit "zip").
  change (lit ".gz") with (46 :: lit "gz").
  change (lit ".tar") with (46 :: lit "tar").
  split.
  - intros Hin.
    repeat (destruct Hin as [H|Hin]; [injection H as ->; auto|]). done.
  - intros [-> | [-> | ->]]; auto.
Qed.

Lemma MAX_FILE_SIZE_value : MAX_FILE_SIZE = 524288000.
Proof. reflexivity. Qed.

(** X7. [handleFiles] looks at the first file only and starts the extraction
    exactly when the file has at most 524288000 bytes and the part of its
    name after the last dot is zip, gz or tar in any ASCII case (a name
    without a dot counts as its own extension). Its format check agrees
    with the dispatch of [extractArchive]: among files within the size
    limit, the accepted ones are exactly those that [extractArchive] does
    not answer with the unsupported-format error. *)
Theorem handleFiles_agrees_with_extractArchive :
  forall TD L loadAsync pako formatFileSize inherited file rest fuel,
    let accepted :=
      handleFiles L formatFileSize (file :: rest) = Normal (Extract file) in
    let ext := extension L (file_name file) in
    (accepted <->
     file_size file <= 524288000
     /\ (ext = lit "zip" \/ ext = lit "gz" \/ ext = lit "tar"))
    /\ (file_size file <= 524288000 ->
        (accepted <->
         extractArchive TD L loadAsync pako inherited fuel file
         <> Some (ArchiveError extract_failed_prefix
                    (Error unsupported_archive_message)))).
Proof.
  intros TD L loadAsync pako fmt inherited file rest fuel accepted ext.
  assert (accepted <->
          file_size file <= 524288000
          /\ (ext = lit "zip" \/ ext = lit "gz" \/ ext = lit "tar"))
    as Haccepted.
  { unfold accepted, handleFiles. rewrite MAX_FILE_SIZE_value. fold ext.
    destruct (Z.ltb_spec 524288000 (file_size file)) as [Hbig|Hsmall].
    - split; [discriminate|]. intros [? _]. lia.
    - destruct (Str.includes supportedFormats (46 :: ext)) eqn:Hinc;
        cbn [negb].
      + apply supported_extension in Hinc. by split.
      + split; [discriminate|]. intros [_ Hext].
        apply supported_extension in Hext. congruence. }
  split; [exact Haccepted|].
  intros Hsize. rewrite Haccepted.
  assert (forall m : string,
             m <> unsupported_archive_message ->
             forall r : completion (gmap (list Z) FileEntry),
               (forall e, r = Throw e -> e = Error m) ->
               match r with
               | Normal files => ShowResults files
               | Throw error => ArchiveError extract_failed_prefix error
               end
               <> ArchiveError extract_failed_prefix
                    (Error unsupported_archive_message)) as Hother.
  { intros m Hm [files|e] Hr; [discriminate|].
    rewrite (Hr e eq_refl). intros [= H]. by apply Hm. }
  unfold extractArchive. fold ext.
  repeat case_bool_decide.
  - split; [intros _|by auto]. intros [= Heq]. revert Heq.
    apply (Hother zip_failed_message).
    + intros Hm. vm_compute in Hm. discriminate.
    + apply extractZip_error.
  - split; [intros _|by auto]. intros [= Heq]. revert Heq.
    apply (Hother gzip_failed_message).
    + intros Hm. vm_compute in Hm. discriminate.
    + apply extractGzip_error.
  - split; [intros _|by auto].
    destruct (extractTar _ _ _ _ _) as [r|] eqn:Hrun; [|discriminate].
    intros [= Heq]. revert Heq.
    apply (Hother tar_failed_message).
    + intros Hm. vm_compute in Hm. discriminate.
    + intros e ->. by apply extractTar_error in Hrun.
  - split; [|done]. intros [_ [?|[?|?]]]; congruence.
Qed.

Lemma handleFiles_agrees_with_extractArchive_witness :
  handleFiles (fun s => s) (fun _ => "500.00 MB"%string)
    [ {| file_name := lit "backup.TAR"; file_size := 524288000;
         file_type := []; file_webkitRelativePath := [];
         file_bytes := [] |} ]
  = Normal (Extract
              {| file_name := lit "backup.TAR"; file_size := 524288000;
                 file_type := []; file_webkitRelativePath := [];
                 file_bytes := [] |}).
Proof.
  apply (proj1 (handleFiles_agrees_with_extractArchive
                  (TextDecoder_decode Fixtures.no_legacy) (fun s => s)
                  (fun _ => Throw TypeError) None (fun _ => "500.00 MB"%string)
                  (fun s => s) _ [] 0)).
  split; [cbn; lia|]. right. right. reflexivity.
Defined.

(** ** extractGzip *)

Lemma is_ascii_app s t :
  Str.is_ascii (s ++ t) = Str.is_ascii s && Str.is_ascii t.
Proof. unfold Str.is_ascii. apply forallb_app. Qed.

Lemma str_slice_drop_last (s : list Z) (k : nat) :
  (1 <= k <= List.length s)%nat ->
  Str.slice s 0 (- Z.of_nat k) = take (List.length s - k) s.
Proof.
  intros Hk. unfold Str.slice, relative_index.
  destruct (Z.ltb_spec (- Z.of_nat k) 0); [|lia].
  cbn [Z.ltb Z.compare]. rewrite Z.min_l by lia.
  rewrite (Z.max_l _ 0) by lia.
  cbn [Z.to_nat drop]. f_equal. lia.
Qed.

Lemma endsWith_app front suffix :
  Str.endsWith (front ++ suffix) suffix = true.
Proof.
  unfold Str.endsWith. apply bool_decide_eq_true_2.
  rewrite length_app.
  replace (List.length front + List.length suffix - List.length suffix)%nat
    with (List.length front) by lia.
  apply drop_app_length.
Qed.

Lemma lower_gz g z :
  g = 103 \/ g = 71 -> z = 122 \/ z = 90 ->
  Str.ascii_lower <$> [46; g; z] = lit ".gz".
Proof. intros [-> | ->] [-> | ->]; reflexivity. Qed.

Lemma ascii_gz g z :
  g = 103 \/ g = 71 -> z = 122 \/ z = 90 -> Str.is_ascii [46; g; z] = true.
Proof. intros [-> | ->] [-> | ->]; reflexivity. Qed.

Lemma gzip_originalName_suffix L stem g z :
  lowers_ascii_suffix L ->
  g = 103 \/ g = 71 -> z = 122 \/ z = 90 ->
  gzip_originalName L (stem ++ [46; g; z]) = stem.
Proof.
  intros HL Hg Hz. unfold gzip_originalName.
  assert (exists front,
             Str.toLowerCase L (stem ++ [46; g; z]) = front ++ lit ".gz")
    as [front ->].
  { unfold Str.toLowerCase. destruct (Str.is_ascii _).
    - exists (Str.ascii_lower <$> stem).
      by rewrite fmap_app, lower_gz.
    - destruct (HL stem [46; g; z] (ascii_gz _ _ Hg Hz)) as [front ->].
      exists front. by rewrite lower_gz. }
  rewrite endsWith_app.
  change (-3) with (- Z.of_nat 3).
  rewrite str_slice_drop_last
    by (rewrite length_app; cbn [List.length]; lia).
  rewrite length_app. cbn [List.length].
  replace (List.length stem + 3 - 3)%nat with (List.length stem) by lia.
  apply take_app_length.
Qed.

Lemma gzip_originalName_other L name :
  Str.is_ascii name = true ->
  (forall stem, Str.ascii_lower <$> name <> stem ++ lit ".gz") ->
  gzip_originalName L name = name.
Proof.
  intros Hascii Hnot. unfold gzip_originalName.
  rewrite toLowerCase_ascii by done. unfold Str.endsWith.
  case_bool_decide as Hends; [|done].
  exfalso. apply (Hnot (take (List.length (Str.ascii_lower <$> name)
                                - List.length (lit ".gz"))
                          (Str.ascii_lower <$> name))).
  rewrite <- (take_drop (List.length (Str.ascii_lower <$> name)
                         - List.length (lit ".gz"))
                (Str.ascii_lower <$> name)) at 1.
  by rewrite Hends.
Qed.

Lemma extractGzip_result L ungzip inherited file files data :
  ungzip (file_bytes file) = Normal data ->
  extractGzip L (Some ungzip) inherited file files
  = Normal
      (assign files (gzip_originalName L (file_name file))
         {| entry_name := gzip_originalName L (file_name file);
            entry_path := gzip_originalName L (file_name file);
            entry_size := byteLength data;
            entry_type :=
              mime_field L inherited (gzip_originalName L (file_name file));
            entry_content := data |}).
Proof. intros Hdata. unfold extractGzip. by rewrite Hdata. Qed.

Lemma assign_other {V} (o : gmap (list Z) V) k v :
  k <> lit "__proto__" -> assign o k v = <[k := v]> o.
Proof. intros Hk. unfold assign. by rewrite bool_decide_eq_false_2. Qed.

Lemma assign_proto {V} (o : gmap (list Z) V) v :
  assign o (lit "__proto__") v = o.
Proof. unfold assign. by rewrite bool_decide_eq_true_2. Qed.

Lemma lower_lowers_ascii_suffix : lowers_ascii_suffix Samples.lower.
Proof.
  intros front suffix _. exists (Str.ascii_lower <$> front).
  unfold Samples.lower. apply fmap_app.
Qed.

(** X8. When [pako.ungzip] succeeds, [extractGzip] stores the one result
    under the name of the file without its last three characters if the
    name ends in [.gz] in any letter case, with that name as name and path
    and the length of the decompressed bytes as size; an ASCII name that
    does not end so is kept whole. Under the one name [__proto__] (from a
    file [__proto__.gz]) nothing is stored. *)
Theorem extractGzip_stores_under_stem :
  forall L ungzip inherited file files data,
    lowers_ascii_suffix L ->
    ungzip (file_bytes file) = Normal data ->
    let stored name :=
      <[name := {| entry_name := name;
                   entry_path := name;
                   entry_size := byteLength data;
                   entry_type := mime_field L inherited name;
                   entry_content := data |}]> files in
    (forall stem g z,
        file_name file = stem ++ [46; g; z] ->
        g = 103 \/ g = 71 -> z = 122 \/ z = 90 ->
        (stem <> lit "__proto__" ->
         extractGzip L (Some ungzip) inherited file files
         = Normal (stored stem))
        /\ (stem = lit "__proto__" ->
            extractGzip L (Some ungzip) inherited file files = Normal files))
    /\ (Str.is_ascii (file_name file) = true ->
        (forall stem,
            Str.ascii_lower <$> file_name file <> stem ++ lit ".gz") ->
        file_name file <> lit "__proto__" ->
        extractGzip L (Some ungzip) inherited file files
        = Normal (stored (file_name file))).
Proof.
  intros L ungzip inherited file files data HL Hdata stored.
  rewrite (extractGzip_result _ _ _ _ _ _ Hdata). split.
  - intros stem g z Hname Hg Hz.
    rewrite Hname, (gzip_originalName_suffix _ _ _ _ HL Hg Hz). split.
    + intros Hstem. by rewrite assign_other.
    + intros ->. by rewrite assign_proto.
  - intros Hascii Hnot Hname.
    rewrite (gzip_originalName_other _ _ Hascii Hnot).
    by rewrite assign_other.
Qed.

Lemma extractGzip_stores_under_stem_witness :
  extractGzip Samples.lower (Some (fun _ => Normal Fixtures.one_file))
    (fun s => s) Samples.tar_gz_file ∅
  = Normal
      {[ [0x6587; 0x4EF6] ++ lit ".tar" :=
           {| entry_name := [0x6587; 0x4EF6] ++ lit ".tar";
              entry_path := [0x6587; 0x4EF6] ++ lit ".tar";
              entry_size := 1536;
              entry_type := lit "application/x-tar";
              entry_content := Fixtures.one_file |} ]}.
Proof.
  destruct (extractGzip_stores_under_stem Samples.lower
              (fun _ => Normal Fixtures.one_file) (fun s => s)
              Samples.tar_gz_file ∅ Fixtures.one_file
              lower_lowers_ascii_suffix eq_refl) as [Hgz _].
  destruct (Hgz ([0x6587; 0x4EF6] ++ lit ".tar") 71 90) as [Hstored _];
    [reflexivity|by right|by right|].
  rewrite Hstored by discriminate. reflexivity.
Defined.

Lemma tar_name_is_not_proto (stem : list Z) :
  stem ++ lit ".tar" <> lit "__proto__".
Proof.
  intros Heq. apply (f_equal (@rev Z)) in Heq.
  rewrite rev_app_distr in Heq. discriminate Heq.
Qed.

(** X9. [extractArchive] only gunzips a [.tar.gz] file, whatever stands
    before this ending: the result view holds one entry, the inner archive
    under the name without [.gz] and with the MIME type of a TAR file; the
    TAR scan is not run on it. *)
Theorem tar_gz_is_only_gunzipped :
  forall TD L loadAsync ungzip inherited fuel file stem data,
    lowers_ascii_suffix L ->
    file_name file = stem ++ lit ".tar.gz" ->
    ungzip (file_bytes file) = Normal data ->
    extractArchive TD L loadAsync (Some ungzip) inherited fuel file
    = Some (ShowResults
              {[ stem ++ lit ".tar" :=
                   {| entry_name := stem ++ lit ".tar";
                      entry_path := stem ++ lit ".tar";
                      entry_size := byteLength data;
                      entry_type := lit "application/x-tar";
                      entry_content := data |} ]}).
Proof.
  intros TD L loadAsync ungzip inherited fuel file stem data HL Hname Hdata.
  unfold extractArchive.
  assert (extension L (file_name file) = lit "gz") as ->.
  { rewrite Hname.
    change (stem ++ lit ".tar.gz") with (stem ++ lit ".tar" ++ 46 :: lit "gz").
    rewrite app_assoc, extension_of_last_segment by decide_it.
    reflexivity. }
  rewrite bool_decide_eq_false_2 by discriminate.
  rewrite bool_decide_eq_true_2 by reflexivity.
  rewrite (extractGzip_result _ _ _ _ _ _ Hdata).
  assert (gzip_originalName L (file_name file) = stem ++ lit ".tar") as ->.
  { rewrite Hname.
    change (stem ++ lit ".tar.gz")
      with (stem ++ lit ".tar" ++ [46; 103; 122]).
    rewrite app_assoc. apply gzip_originalName_suffix; [exact HL|by left..]. }
  rewrite assign_other by apply tar_name_is_not_proto.
  assert (mime_field L inherited (stem ++ lit ".tar")
          = lit "application/x-tar") as ->; [|reflexivity].
  unfold mime_field.
  change (stem ++ lit ".tar") with (stem ++ 46 :: lit "tar").
  rewrite (getMimeType_table L stem (lit "tar") (lit "application/x-tar"));
    [reflexivity|decide_it].
Qed.

Lemma tar_gz_is_only_gunzipped_witness :
  exists files,
    extractArchive (TextDecoder_decode Fixtures.no_legacy) Samples.lower
      (fun _ => Throw TypeError) (Some (fun _ => Normal Fixtures.one_file))
      (fun s => s) 0
      {| file_name := [0x6587; 0x4EF6] ++ lit ".tar.gz"; file_size := 20;
         file_type := []; file_webkitRelativePath := []; file_bytes := [] |}
    = Some (ShowResults files)
    /\ size files = 1%nat.
Proof.
  eexists. split.
  - apply (tar_gz_is_only_gunzipped _ _ _ _ _ _ _ [0x6587; 0x4EF6]);
      [exact lower_lowers_ascii_suffix|reflexivity..].
  - apply map_size_singleton.
Defined.

(** ** handleImageCompressFiles *)

Lemma validate_images_step fmt file rest validFiles :
  valid_image file ->
  validate_images fmt (file :: rest) validFiles
  = validate_images fmt rest (validFiles ++ [file]).
Proof.
  intros [Htype Hsize]. cbn [validate_images]. unfold Str.includes.
  rewrite bool_decide_eq_true_2 by done. cbn [negb].
  rewrite MAX_FILE_SIZE_value.
  destruct (Z.ltb_spec 524288000 (file_size file)); [lia|done].
Qed.

Lemma validate_images_all_valid fmt files validFiles :
  Forall valid_image files ->
  validate_images fmt files validFiles
  = match validFiles ++ files with
    | [] => NoValidImages
    | all => CompressImages all
    end.
Proof.
  intros Hall. revert validFiles.
  induction Hall as [|file files Hfile _ IH]; intros validFiles.
  - cbn [validate_images]. rewrite app_nil_r. by destruct validFiles.
  - rewrite validate_images_step by done. rewrite IH.
    by rewrite <- app_assoc.
Qed.

Lemma validate_images_first_invalid fmt pre bad post validFiles :
  Forall valid_image pre -> ~ valid_image bad ->
  validate_images fmt (pre ++ bad :: post) validFiles
  = if bool_decide (file_type bad ∈ supportedTypes)
    then ImageTooLarge (file_name bad) (fmt MAX_FILE_SIZE)
    else UnsupportedImage (file_name bad).
Proof.
  intros Hpre Hbad. revert validFiles.
  induction Hpre as [|file pre Hfile _ IH]; intros validFiles.
  - cbn [app validate_images]. unfold Str.includes.
    case_bool_decide as Htype; cbn [negb]; [|done].
    rewrite MAX_FILE_SIZE_value.
    destruct (Z.ltb_spec 524288000 (file_size bad)); [done|].
    exfalso. apply Hbad. by split.
  - cbn [app]. rewrite validate_images_step by done. apply IH.
Qed.

(** X10. [handleImageCompressFiles] is all or nothing: the compression starts
    only when every file has a supported image type and at most 524288000
    bytes, and then with all the files in their order; otherwise the first
    file that fails a check is the one named in the error and nothing is
    compressed. The message for "no valid image" can only come from an
    empty list. *)
Theorem handleImageCompressFiles_all_or_nothing :
  forall formatFileSize files,
    (files <> [] -> Forall valid_image files ->
     handleImageCompressFiles formatFileSize files = CompressImages files)
    /\ (forall validFiles,
          handleImageCompressFiles formatFileSize files
          = CompressImages validFiles ->
          validFiles = files /\ files <> [] /\ Forall valid_image files)
    /\ (forall pre bad post,
          files = pre ++ bad :: post ->
          Forall valid_image pre -> ~ valid_image bad ->
          handleImageCompressFiles formatFileSize files
          = UnsupportedImage (file_name bad)
          \/ handleImageCompressFiles formatFileSize files
             = ImageTooLarge (file_name bad)
                 (formatFileSize MAX_FILE_SIZE))
    /\ (handleImageCompressFiles formatFileSize files = NoValidImages
        <-> files = []).
Proof.
  intros fmt files. unfold handleImageCompressFiles.
  assert (Forall valid_image files
          \/ exists pre bad post,
              files = pre ++ bad :: post
              /\ Forall valid_image pre /\ ~ valid_image bad) as Hcases.
  { induction files as [|file files IH]; [by left|].
    assert (Decision (valid_image file)) as [Hfile|Hfile]
      by (unfold valid_image; apply _).
    - destruct IH as [Hall|(pre & bad & post & -> & Hpre & Hbad)].
      + left. by constructor.
      + right. exists (file :: pre), bad, post. repeat split; [|done].
        by constructor.
    - right. by exists [], file, files. }
  assert (forall pre bad post,
             files = pre ++ bad :: post ->
             Forall valid_image pre -> ~ valid_image bad ->
             validate_images fmt files [] = UnsupportedImage (file_name bad)
             \/ validate_images fmt files []
                = ImageTooLarge (file_name bad) (fmt MAX_FILE_SIZE))
    as Hinvalid.
  { intros pre bad post -> Hpre Hbad.
    rewrite validate_images_first_invalid by done.
    case_bool_decide; [by right|by left]. }
  split; [|split; [|split]].
  - intros Hne Hall. rewrite validate_images_all_valid by done.
    cbn [app]. by destruct files.
  - intros validFiles Hrun.
    destruct Hcases as [Hall|(pre & bad & post & Hfiles & Hpre & Hbad)].
    + rewrite validate_images_all_valid in Hrun by done.
      cbn [app] in Hrun. destruct files; [discriminate|].
      by injection Hrun as <-.
    + destruct (Hinvalid _ _ _ Hfiles Hpre Hbad) as [H|H];
        rewrite H in Hrun; discriminate.
  - exact Hinvalid.
  - split.
    + intros Hrun.
      destruct Hcases as [Hall|(pre & bad & post & Hfiles & Hpre & Hbad)].
      * rewrite validate_images_all_valid in Hrun by done.
        cbn [app] in Hrun. by destruct files.
      * destruct (Hinvalid _ _ _ Hfiles Hpre Hbad) as [H|H];
          rewrite H in Hrun; discriminate.
    + by intros ->.
Qed.

Lemma handleImageCompressFiles_all_or_nothing_witness :
  let png := {| file_name := lit "a.png"; file_size := 10;
                file_type := lit "image/png";
                file_webkitRelativePath := []; file_bytes := [] |} in
  let gif := {| file_name := lit "b.gif"; file_size := 10;
                file_type := lit "image/gif";
                file_webkitRelativePath := []; file_bytes := [] |} in
  handleImageCompressFiles (fun _ => ""%string) [png; png] = CompressImages [png; png]
  /\ handleImageCompressFiles (fun _ => ""%string) [png; gif; png]
     = UnsupportedImage (lit "b.gif").
Proof.
  intros png gif. split.
  - apply (proj1 (handleImageCompressFiles_all_or_nothing _ [png; png]));
      [discriminate|].
    repeat constructor; try decide_it; cbn; lia.
  - destruct (proj1 (proj2 (proj2
               (handleImageCompressFiles_all_or_nothing (fun _ => ""%string)
                  [png; gif; png]))) [png] gif [png]) as [H|H].
    + reflexivity.
    + repeat constructor; try decide_it; cbn; lia.
    + intros [Htype _]. revert Htype. decide_it.
    + exact H.
    + vm_compute in H. discriminate.
Defined.

(** ** extractZip *)

Lemma extractZip_loop_dom L inherited entries :
  forall files result,
    extractZip_loop L inherited entries files = Normal result ->
    (forall path,
        path ∈ dom result <->
        path ∈ dom files
        \/ exists zipEntry,
            zipEntry ∈ entries /\ zip_dir zipEntry = false
            /\ zip_path zipEntry = path /\ path <> lit "__proto__")
    /\ (map_Forall stored_as_file files -> map_Forall stored_as_file result).
Proof.
  induction entries as [|zipEntry entries IH]; intros files result Hrun.
  - injection Hrun as <-. split; [|done].
    intros path. split; [by left|]. intros [?|(? & Hin & _)]; [done|].
    by apply elem_of_nil in Hin.
  - cbn [extractZip_loop] in Hrun.
    destruct (zip_dir zipEntry) eqn:Hdir.
    + destruct (IH _ _ Hrun) as [Hdom Hwf]. split; [|done].
      intros path. rewrite Hdom. split.
      * intros [?|(e & Hin & He)]; [by left|].
        right. exists e. split; [by right|done].
      * intros [?|(e & Hin & Hfile & Hpath)]; [by left|].
        apply elem_of_cons in Hin as [->|Hin]; [congruence|].
        right. by exists e.
    + destruct (zip_async zipEntry) as [content|e]; [|discriminate].
      cbn [mbind completion_bind] in Hrun.
      destruct (IH _ _ Hrun) as [Hdom Hwf].
      destruct (decide (zip_path zipEntry = lit "__proto__")) as [Hproto|Hkey].
      * rewrite Hproto, assign_proto in Hdom, Hwf. split; [|exact Hwf].
        intros path. rewrite Hdom. split.
        -- intros [?|(e & Hin & He)]; [by left|].
           right. exists e. split; [by right|done].
        -- intros [?|(e & Hin & Hfile & Hpath & Hne)]; [by left|].
           apply elem_of_cons in Hin as [->|Hin]; [congruence|].
           right. by exists e.
      * rewrite assign_other in Hdom, Hwf by exact Hkey. split.
        -- intros path.
           rewrite Hdom, dom_insert, elem_of_union, elem_of_singleton.
           split.
           ++ intros [[->|?]|(e & Hin & He)].
              ** right. exists zipEntry. split; [by left|done].
              ** by left.
              ** right. exists e. split; [by right|done].
           ++ intros [?|(e & Hin & Hfile & Hpath & Hne)]; [by left; right|].
              apply elem_of_cons in Hin as [->|Hin]; [by left; left|].
              right. by exists e.
        -- intros Hfiles. apply Hwf. apply map_Forall_insert_2; [|done].
           repeat split; cbn.
           apply split_pop_free.
Qed.

(** X11. [extractZip] stores the files of the archive and never a
    directory: every key of the result is the path of an entry that is not
    a directory, and every such path is a key (a path [__proto__] apart,
    which a plain object does not keep as a key of its own); each entry is
    stored under its path with the part after the last slash as its name
    and the length of its content as its size; and one blob that cannot be
    read makes the whole extraction fail with the error of [extractZip]. *)
Theorem extractZip_stores_files_only :
  forall L loadAsync inherited file entries,
    loadAsync file = Normal entries ->
    (forall result,
        extractZip L loadAsync inherited file ∅ = Normal result ->
        (forall path,
            path ∈ dom result ->
            exists zipEntry,
              (zipEntry ∈ entries) /\ zip_dir zipEntry = false
              /\ zip_path zipEntry = path)
        /\ (forall zipEntry,
              (zipEntry ∈ entries) -> zip_dir zipEntry = false ->
              zip_path zipEntry <> lit "__proto__" ->
              zip_path zipEntry ∈ dom result)
        /\ map_Forall stored_as_file result)
    /\ ((exists zipEntry e,
            (zipEntry ∈ entries) /\ zip_dir zipEntry = false
            /\ zip_async zipEntry = Throw e) ->
        extractZip L loadAsync inherited file ∅
        = Throw (Error zip_failed_message)).
Proof.
  intros L loadAsync inherited file entries Hload.
  unfold extractZip. rewrite Hload. cbn [mbind completion_bind].
  split.
  - intros result Hrun.
    destruct (extractZip_loop L inherited entries ∅) as [r|e] eqn:Hloop;
      [|discriminate].
    injection Hrun as <-.
    destruct (extractZip_loop_dom _ _ _ _ _ Hloop) as [Hdom Hwf].
    split; [|split]; [| |apply Hwf, map_Forall_empty].
    + intros path Hpath.
      apply Hdom in Hpath as [Hin|(e & Hin & Hdir & Hpath & _)].
      * rewrite dom_empty in Hin. by apply elem_of_empty in Hin.
      * by exists e.
    + intros zipEntry Hin Hdir Hkey. apply Hdom. right. by exists zipEntry.
  - intros (zipEntry & e & Hin & Hdir & Hasync).
    assert (forall files,
               exists e', extractZip_loop L inherited entries files = Throw e')
      as Hfail.
    { clear Hload.
      induction entries as [|x entries IH]; [by apply elem_of_nil in Hin|].
      intros files. cbn [extractZip_loop].
      apply elem_of_cons in Hin as [<-|Hin].
      - rewrite Hdir, Hasync. by eexists.
      - destruct (zip_dir x); [by apply IH|].
        destruct (zip_async x); [|by eexists].
        cbn [mbind completion_bind]. by apply IH. }
    destruct (Hfail ∅) as [e' ->]. reflexivity.
Qed.

Lemma extractZip_stores_files_only_witness :
  extractZip (fun s => s)
    (fun _ => Normal Samples.zip_entries) (fun s => s) Samples.zip_file ∅
  = Throw (Error zip_failed_message).
Proof.
  apply (extractZip_stores_files_only (fun s => s)
           (fun _ => Normal Samples.zip_entries) (fun s => s)
           Samples.zip_file Samples.zip_entries eq_refl).
  exists Samples.zip_broken, TypeError.
  split; [|by split].
  unfold Samples.zip_entries. set_solver.
Defined.

(* ===================================================================== *)
(** * Further properties: the TAR scan                                    *)
(* ===================================================================== *)

Lemma pass_in_range TD mime buffer st st' :
  pass TD mime buffer st st' -> header_in_range buffer (offset st).
Proof.
  intros [Hlt Hbody]. split; [|exact Hlt].
  destruct (Z.lt_ge_cases (offset st) 0) as [Hneg|Hpos]; [|lia].
  by rewrite loopBody_negative_cursor in Hbody.
Qed.

Lemma pass_closed_form TD mime buffer st st' :
  pass TD mime buffer st st' ->
  exists fileName,
    fileName <> []
    /\ smartDecodeFileName TD (Header.name_bytes buffer (offset st))
       = Normal fileName
    /\ st' = after_header mime buffer st fileName.
Proof.
  intros Hpass. pose proof (pass_in_range _ _ _ _ _ Hpass) as Hin.
  destruct Hpass as [_ Hbody].
  rewrite loopBody_in_range in Hbody by exact Hin.
  destruct (Header.zero_block _ _); [discriminate|].
  destruct (smartDecodeFileName _ _) as [[|c s]|]; try discriminate.
  injection Hbody as <-. by exists (c :: s).
Qed.


Lemma ceil_div_blocks a : (512 | ceil_div a 512 * 512).
Proof. by exists (ceil_div a 512). Qed.

Lemma pass_aligned TD mime buffer st st' :
  pass TD mime buffer st st' -> (512 | offset st) -> (512 | offset st').
Proof.
  intros Hpass Hst.
  destruct (pass_closed_form _ _ _ _ _ Hpass) as (fileName & _ & _ & ->).
  cbn [after_header offset].
  apply Z.divide_add_r; [apply Z.divide_add_r|]; [exact Hst|by exists 1|].
  apply ceil_div_blocks.
Qed.

(** X12. The cursor of the scan stays on block boundaries: from a cursor that
    is a multiple of 512 every header that the loop goes on to read starts
    at a multiple of 512, whatever the size fields hold, negative ones
    included. *)
Theorem scan_cursor_stays_block_aligned :
  forall TD mime buffer st st',
    visits TD mime buffer st st' ->
    (512 | offset st) -> (512 | offset st').
Proof.
  intros TD mime buffer st st' Hvisits.
  induction Hvisits as [st|st st1 st' Hpass _ IH]; [done|].
  intros Hst. apply IH. by eapply pass_aligned.
Qed.

Lemma scan_cursor_stays_block_aligned_witness :
  (512 | offset
           (after_header Fixtures.no_mime Fixtures.file_then_negative
              Fixtures.start (lit "a.txt"))).
Proof.
  apply (scan_cursor_stays_block_aligned
           (TextDecoder_decode Fixtures.no_legacy) Fixtures.no_mime
           Fixtures.file_then_negative Fixtures.start).
  - apply rtc_once. split; [reflexivity|]. vm_compute. reflexivity.
  - by exists 0.
Defined.

Lemma pass_moves_on TD mime buffer st st' :
  pass TD mime buffer st st' ->
  0 <= header_size buffer (offset st) ->
  offset st + 512 <= offset st'.
Proof.
  intros Hpass Hsize.
  destruct (pass_closed_form _ _ _ _ _ Hpass) as (fileName & _ & _ & ->).
  cbn [after_header offset].
  pose proof (ceil_div_nonneg _ Hsize). lia.
Qed.

Lemma scan_within TD mime buffer :
  (forall cursor,
      (512 | cursor) -> header_in_range buffer cursor ->
      0 <= header_size buffer cursor) ->
  forall (n : nat) st,
    (512 | offset st) ->
    byteLength buffer - 512 - offset st <= 512 * Z.of_nat n ->
    exists r, scan TD mime (S n) buffer st = Some r.
Proof.
  intros Hsizes. induction n as [|n IH]; intros st Haligned Hleft.
  - exists (Normal st). apply scan_stops_at_test. lia.
  - destruct (Z.lt_ge_cases (offset st) (byteLength buffer - 512))
      as [Hlt|Hge]; [|exists (Normal st); by apply scan_stops_at_test].
    destruct (loopBody TD mime buffer st) as [[|st1]|e] eqn:Hbody.
    + exists (Normal st). by apply scan_stops_at_break.
    + assert (pass TD mime buffer st st1) as Hpass by (by split).
      rewrite (scan_next _ _ _ _ _ _ Hlt Hbody).
      apply IH; [by eapply pass_aligned|].
      pose proof (pass_in_range _ _ _ _ _ Hpass) as Hin.
      pose proof (pass_moves_on _ _ _ _ _ Hpass (Hsizes _ Haligned Hin)).
      lia.
    + exists (Throw e). cbn [scan]. rewrite Hbody.
      destruct (Z.ltb_spec (offset st) (byteLength buffer - 512)); [done|lia].
Qed.

(** X13. When no header on a block boundary of the buffer carries a negative
    size, [extractTar] finishes, and within one pass for every 512 bytes
    of the buffer, plus one. *)
Theorem extractTar_finishes_within_block_count :
  forall TD mime buffer files,
    (forall cursor,
        (512 | cursor) -> header_in_range buffer cursor ->
        0 <= header_size buffer cursor) ->
    exists r,
      extractTar TD mime (S (Z.to_nat (byteLength buffer / 512))) buffer files
      = Some r.
Proof.
  intros TD mime buffer files Hsizes.
  destruct (scan_within TD mime buffer Hsizes
              (Z.to_nat (byteLength buffer / 512))
              {| offset := 0; processedFiles := 0; extractedFiles := files |})
    as [r Hr].
  - by exists 0.
  - cbn [offset]. assert (0 <= byteLength buffer) by (unfold byteLength; lia).
    rewrite Z2Nat.id by (apply Z.div_pos; lia). divlia.
  - unfold extractTar. rewrite Hr. by eexists.
Qed.

Lemma extractTar_finishes_within_block_count_witness :
  exists r,
    extractTar (TextDecoder_decode Fixtures.no_legacy) Fixtures.no_mime
      4 Fixtures.one_file ∅ = Some r.
Proof.
  apply (extractTar_finishes_within_block_count
           (TextDecoder_decode Fixtures.no_legacy) Fixtures.no_mime
           Fixtures.one_file ∅).
  intros cursor [k ->] [Hlow Hhigh].
  change (byteLength Fixtures.one_file) with 1536 in Hhigh.
  assert (k = 0 \/ k = 1) as [-> | ->] by lia; vm_compute; discriminate.
Defined.






Lemma before_length {A} (stop : A -> bool) (l : list A) :
  (List.length (Header.before stop l) <= List.length l)%nat.
Proof.
  induction l as [|x l IH]; cbn; [lia|].
  destruct (stop x); cbn; lia.
Qed.

Lemma size_chars_length buffer cursor :
  (List.length (Header.size_chars buffer cursor) <= 12)%nat.
Proof.
  unfold Header.size_chars, Header.field. rewrite length_fmap.
  etransitivity; [apply before_length|].
  rewrite length_take. lia.
Qed.

Lemma trimStart_length s : (List.length (trimStart s) <= List.length s)%nat.
Proof.
  induction s as [|c s IH]; cbn; [lia|].
  destruct (is_whitespace c); cbn; lia.
Qed.

Lemma trim_length s : (List.length (trim s) <= List.length s)%nat.
Proof.
  unfold trim, trimEnd. rewrite length_rev.
  etransitivity; [apply trimStart_length|].
  rewrite length_rev. apply trimStart_length.
Qed.

Lemma digit_value_nonneg c d : digit_value c = Some d -> 0 <= d.
Proof.
  unfold digit_value. intros Hd.
  repeat match type of Hd with
         | context [?a <=? ?b] => destruct (Z.leb_spec a b)
         end; cbn in Hd; try discriminate; injection Hd as <-; lia.
Qed.

Lemma radix_digits_spec R s :
  (List.length (radix_digits R s) <= List.length s)%nat
  /\ Forall (fun d => 0 <= d < R) (radix_digits R s).
Proof.
  induction s as [|c s [IHlen IHall]]; cbn; [by split; [lia|]|].
  destruct (digit_value c) as [d|] eqn:Hd; [|cbn; split; [lia|done]].
  destruct (Z.ltb_spec d R); cbn; [|split; [lia|done]].
  split; [lia|]. constructor; [|exact IHall].
  split; [by eapply digit_value_nonneg|done].
Qed.

Lemma fold_digits_bounds (ds : list Z) :
  Forall (fun d => 0 <= d < 8) ds ->
  forall acc, 0 <= acc ->
    0 <= fold_left (fun acc d => acc * 8 + d) ds acc
      < (acc + 1) * 8 ^ Z.of_nat (List.length ds).
Proof.
  induction 1 as [|d ds Hd _ IH]; intros acc Hacc; cbn [fold_left List.length].
  - change (8 ^ Z.of_nat 0) with 1. lia.
  - rewrite Nat2Z.inj_succ, Z.pow_succ_r by lia.
    destruct (IH (acc * 8 + d) ltac:(lia)) as [Hlow Hhigh].
    split; [exact Hlow|].
    eapply Z.lt_le_trans; [exact Hhigh|].
    assert (0 < 8 ^ Z.of_nat (List.length ds)) by (apply Z.pow_pos_nonneg; lia).
    nia.
Qed.

Lemma parseInt_octal_bounds s v :
  parseInt s 8 = Num v ->
  - 8 ^ Z.of_nat (List.length s) < v < 8 ^ Z.of_nat (List.length s).
Proof.
  rewrite parseInt_radix_8.
  pose proof (trimStart_length s) as Hs.
  set (S1 := trimStart s) in *.
  set (S2 := match S1 with
             | c :: rest => if (c =? 43) || (c =? 45) then rest else S1
             | [] => []
             end).
  assert (List.length S2 <= List.length s)%nat as Hlen.
  { subst S2. destruct S1 as [|c rest]; cbn in *; [lia|].
    destruct ((c =? 43) || (c =? 45)); cbn; lia. }
  destruct (radix_digits_spec 8 S2) as [Hdigits Hall].
  destruct (radix_digits 8 S2) as [|d ds] eqn:Hds;
    [intros Hnan; discriminate Hnan|].
  intros [= <-].
  pose proof (fold_digits_bounds _ Hall 0 ltac:(lia)) as Hvalue.
  fold (digits_value 8 (d :: ds)) in Hvalue.
  assert (8 ^ Z.of_nat (List.length (d :: ds)) <= 8 ^ Z.of_nat (List.length s))
    by (apply Z.pow_le_mono_r; lia).
  destruct S1 as [|c rest]; [lia|].
  destruct (c =? 45); lia.
Qed.

(** X15. The size that the scan reads from a header is an integer of at most
    twelve octal digits whatever the field holds: it lies strictly between
    minus 8^12 and 8^12, so that it is an exact JavaScript number. *)
Theorem header_size_bounded :
  forall buffer cursor,
    - 8 ^ 12 < header_size buffer cursor < 8 ^ 12.
Proof.
  intros buffer cursor. unfold header_size, fileSize_of.
  destruct (parseInt _ 8) as [|v] eqn:Hparse; [cbn; lia|].
  apply parseInt_octal_bounds in Hparse. cbn [or_zero].
  pose proof (trim_length (Header.size_chars buffer cursor)).
  pose proof (size_chars_length buffer cursor).
  assert (8 ^ Z.of_nat (List.length (trim (Header.size_chars buffer cursor)))
          <= 8 ^ 12) by (apply Z.pow_le_mono_r; lia).
  lia.
Qed.

(** X16. An archive of at most 512 bytes, or one whose first block is all
    zero, is always rejected with the error of [extractTar]: no header of
    it is turned into an entry. *)
Theorem extractTar_rejects_short_or_blank_archives :
  forall TD mime fuel buffer,
    byteLength buffer <= 512 \/ Header.zero_block buffer 0 = true ->
    extractTar TD mime (S fuel) buffer ∅
    = Some (Throw (Error tar_failed_message)).
Proof.
  intros TD mime fuel buffer [Hshort|Hblank].
  - rewrite (extractTar_after_scan _ _ _ _ _ Fixtures.start); [reflexivity|].
    apply scan_stops_at_test. change (offset Fixtures.start) with 0. lia.
  - by apply extractTar_zero_block_raises.
Qed.

Lemma extractTar_rejects_short_or_blank_archives_witness :
  extractTar (TextDecoder_decode Fixtures.no_legacy) Fixtures.no_mime
    1 Fixtures.lone_header ∅
  = Some (Throw (Error tar_failed_message)).
Proof.
  apply (extractTar_rejects_short_or_blank_archives
           (TextDecoder_decode Fixtures.no_legacy) Fixtures.no_mime
           0%nat Fixtures.lone_header).
  left. vm_compute. discriminate.
Defined.

Lemma tryEncodings_same_decoder TD first second rest bytes :
  TD first false bytes = TD second false bytes ->
  tryEncodings TD (first :: second :: rest) bytes
  = tryEncodings TD (first :: rest) bytes.
Proof.
  intros Hsame. cbn [tryEncodings]. rewrite <- Hsame.
  destruct (TD first false bytes) as [decoded|e]; [|reflexivity].
  by destruct (ratio_below_tenth _ _).
Qed.

(** X17. On a platform that follows the Encoding Standard the attempt with
    the label gb2312 never decides the result of [smartDecodeFileName]:
    the label names the decoder of gbk, which has just been tried, so the
    list of legacy encodings gives the same result without it. *)
Theorem gb2312_attempt_is_redundant :
  forall legacy bytes,
    tryEncodings (TextDecoder_decode legacy) encodings bytes
    = tryEncodings (TextDecoder_decode legacy)
        ["gbk"; "big5"; "shift-jis"]%string bytes.
Proof.
  intros legacy bytes. unfold encodings.
  by apply tryEncodings_same_decoder.
Qed.

(* ===================================================================== *)
(** * Further properties: names accepted as UTF-8                         *)
(* ===================================================================== *)

Lemma byte_of_u8 b : Utf8.byte_of (u8 b) = b.
Proof.
  unfold Utf8.byte_of, u8. by rewrite N2Z.id, Byte.of_to_N.
Qed.

Lemma handler_error b :
  0x80 <= b < 0xC2 \/ 0xF4 < b ->
  utf8_handler utf8_initial b = (utf8_initial, Res_error).
Proof.
  intros Hb. unfold utf8_handler.
  cbn [bytes_needed utf8_initial Z.eqb].
  destruct (Z.leb_spec b 0x7F); [lia|].
  destruct (Z.leb_spec 0xC2 b); destruct (Z.leb_spec b 0xDF);
    destruct (Z.leb_spec 0xE0 b); destruct (Z.leb_spec b 0xEF);
    destruct (Z.leb_spec 0xF0 b); destruct (Z.leb_spec b 0xF4);
    cbn [andb]; try reflexivity; lia.
Qed.

(** In fatal mode a decoder that is inside a sequence only goes on with a
    byte between its boundaries. *)
Lemma utf8_run_step st input cps :
  bytes_needed st <> 0 ->
  utf8_run true st input = Normal cps ->
  exists b rest,
    input = b :: rest
    /\ lower_boundary st <= u8 b <= upper_boundary st
    /\ (if bytes_seen st + 1 =? bytes_needed st
        then cons (code_point st * 64 + u8 b mod 64)
               <$> utf8_run true utf8_initial rest
        else utf8_run true
               {| code_point := code_point st * 64 + u8 b mod 64;
                  bytes_seen := bytes_seen st + 1;
                  bytes_needed := bytes_needed st;
                  lower_boundary := 0x80; upper_boundary := 0xBF |} rest)
       = Normal cps.
Proof.
  intros Hneeded Hrun. destruct input as [|b rest].
  - cbn [utf8_run] in Hrun.
    destruct (Z.eqb_spec (bytes_needed st) 0); [done|discriminate].
  - exists b, rest. split; [reflexivity|].
    assert (lower_boundary st <= u8 b <= upper_boundary st) as Hrange.
    { cbn [utf8_run] in Hrun. unfold utf8_handler at 1 in Hrun.
      destruct (Z.eqb_spec (bytes_needed st) 0); [done|].
      destruct (Z.leb_spec (lower_boundary st) (u8 b));
        destruct (Z.leb_spec (u8 b) (upper_boundary st));
        cbn [andb negb] in Hrun; try lia;
        destruct (utf8_handler utf8_initial (u8 b)); discriminate. }
    split; [exact Hrange|].
    pose proof (Z.mod_pos_bound (u8 b) 64 ltac:(lia)) as Hmod.
    pose proof (handler_continuation st (u8 b) Hneeded Hrange Hmod) as Hh.
    destruct (bytes_seen st + 1 =? bytes_needed st).
    + by rewrite (utf8_run_code_point true _ _ _ _ _ Hh) in Hrun.
    + by rewrite (utf8_run_continue true _ _ _ _ Hh) in Hrun.
Qed.

Ltac next_byte Hrun b rest Hrange :=
  apply utf8_run_step in Hrun; [|discriminate];
  destruct Hrun as (b & rest & -> & Hrange & Hrun);
  cbn [utf8_lead bytes_seen bytes_needed code_point lower_boundary
         upper_boundary] in Hrun, Hrange;
  repeat match type of Hrun with
         | context [?seen =? ?needed] =>
             let v := eval vm_compute in (seen =? needed) in
             change (seen =? needed) with v in Hrun
         end;
  cbv beta iota in Hrun.

Ltac last_code_point Hrun cps' :=
  match type of Hrun with
  | cons _ <$> ?run = _ =>
      let Hrest := fresh "Hrest" in
      destruct run as [cps'|] eqn:Hrest; [|discriminate];
      injection Hrun as <-
  end.

Ltac encoded_byte :=
  match goal with
  | |- context [Utf8.byte_of ?z] =>
      lazymatch z with
      | u8 _ => fail
      | _ => idtac
      end;
      match goal with
      | x : Byte.byte |- _ =>
          replace z with (u8 x) by divlia; rewrite (byte_of_u8 x)
      end
  end.

Lemma utf8_first_code_point b rest cps :
  utf8_run true utf8_initial (b :: rest) = Normal cps ->
  exists c rest' cps',
    Utf8.is_scalar c
    /\ b :: rest = Utf8.encode_code_point c ++ rest'
    /\ cps = c :: cps'
    /\ utf8_run true utf8_initial rest' = Normal cps'
    /\ (List.length rest' <= List.length rest)%nat.
Proof.
  intros Hrun. pose proof (u8_bounds b) as Hb.
  destruct (Z.le_gt_cases (u8 b) 0x7F) as [Hascii|Hhigh].
  { rewrite (utf8_run_code_point true _ _ _ _ _
               (handler_ascii (u8 b) ltac:(lia))) in Hrun.
    last_code_point Hrun cps'.
    exists (u8 b), rest, cps'.
    split; [split; lia|]. split; [|by repeat split].
    unfold Utf8.encode_code_point.
    destruct (Z.leb_spec (u8 b) 0x7F); [|lia].
    by rewrite byte_of_u8. }
  destruct (Z.lt_ge_cases (u8 b) 0xC2) as [Hcont|Hlead].
  { cbn [utf8_run] in Hrun. rewrite handler_error in Hrun by lia.
    discriminate. }
  destruct (Z.lt_ge_cases 0xF4 (u8 b)) as [Hover|Hmax].
  { cbn [utf8_run] in Hrun. rewrite handler_error in Hrun by lia.
    discriminate. }
  rewrite (utf8_run_continue true _ _ _ _
             (handler_lead (u8 b) ltac:(lia))) in Hrun.
  destruct (Z.leb_spec (u8 b) 0xDF) as [H2|H2].
  { next_byte Hrun b1 rest1 Hb1.
    last_code_point Hrun cps'.
    exists (u8 b mod 32 * 64 + u8 b1 mod 64), rest1, cps'.
    split; [split; divlia|].
    split; [|repeat split; [done|cbn; lia]].
    unfold Utf8.encode_code_point.
    rewrite !shiftr_6, !land_0x3F.
    rewrite !lor_0x80 by (apply Z.mod_pos_bound; lia).
    destruct (Z.leb_spec (u8 b mod 32 * 64 + u8 b1 mod 64) 0x7F); [divlia|].
    destruct (Z.leb_spec (u8 b mod 32 * 64 + u8 b1 mod 64) 0x7FF); [|divlia].
    cbn [app]. repeat encoded_byte. reflexivity. }
  destruct (Z.leb_spec (u8 b) 0xEF) as [H3|H3].
  { next_byte Hrun b1 rest1 Hb1.
    next_byte Hrun b2 rest2 Hb2.
    last_code_point Hrun cps'.
    exists ((u8 b mod 16 * 64 + u8 b1 mod 64) * 64 + u8 b2 mod 64),
      rest2, cps'.
    set (c := (u8 b mod 16 * 64 + u8 b1 mod 64) * 64 + u8 b2 mod 64).
    assert (0x80 <= u8 b1 <= 0xBF) as Hb1'.
    { destruct (Z.eqb_spec (u8 b) 0xE0); destruct (Z.eqb_spec (u8 b) 0xED);
        lia. }
    assert (0x800 <= c <= 0xFFFF /\ ~ (0xD800 <= c <= 0xDFFF)) as [Hc Hsur].
    { subst c.
      destruct (Z.eqb_spec (u8 b) 0xE0); destruct (Z.eqb_spec (u8 b) 0xED);
        divlia. }
    split; [split; lia|].
    split; [|repeat split; [done|cbn; lia]].
    unfold Utf8.encode_code_point.
    rewrite !shiftr_6, !shiftr_12, !land_0x3F.
    rewrite !lor_0x80 by (apply Z.mod_pos_bound; lia).
    destruct (Z.leb_spec c 0x7F); [lia|].
    destruct (Z.leb_spec c 0x7FF); [lia|].
    destruct (Z.leb_spec c 0xFFFF); [|lia].
    subst c; cbn [app]. repeat encoded_byte. reflexivity. }
  next_byte Hrun b1 rest1 Hb1.
  next_byte Hrun b2 rest2 Hb2.
  next_byte Hrun b3 rest3 Hb3.
  last_code_point Hrun cps'.
  exists (((u8 b mod 8 * 64 + u8 b1 mod 64) * 64 + u8 b2 mod 64) * 64
          + u8 b3 mod 64), rest3, cps'.
  set (c := ((u8 b mod 8 * 64 + u8 b1 mod 64) * 64 + u8 b2 mod 64) * 64
            + u8 b3 mod 64).
  assert (0x80 <= u8 b1 <= 0xBF) as Hb1'.
  { destruct (Z.eqb_spec (u8 b) 0xF0); destruct (Z.eqb_spec (u8 b) 0xF4);
      lia. }
  assert (0x10000 <= c <= 0x10FFFF) as Hc.
  { subst c.
    destruct (Z.eqb_spec (u8 b) 0xF0); destruct (Z.eqb_spec (u8 b) 0xF4);
      divlia. }
  split; [split; lia|].
  split; [|repeat split; [done|cbn; lia]].
  unfold Utf8.encode_code_point.
  rewrite !shiftr_6, !shiftr_12, !shiftr_18, !land_0x3F.
  rewrite !lor_0x80 by (apply Z.mod_pos_bound; lia).
  destruct (Z.leb_spec c 0x7F); [lia|].
  destruct (Z.leb_spec c 0x7FF); [lia|].
  destruct (Z.leb_spec c 0xFFFF); [lia|].
  subst c; cbn [app]. repeat encoded_byte. reflexivity.
Qed.

(** What the fatal UTF-8 decoder accepts is the encoding of what it
    returns. *)
Lemma utf8_run_strict_inv bytes :
  forall cps,
    utf8_run true utf8_initial bytes = Normal cps ->
    Forall Utf8.is_scalar cps /\ Utf8.encode cps = bytes.
Proof.
  remember (List.length bytes) as n eqn:Hn. revert bytes Hn.
  induction n as [n IH] using lt_wf_ind. intros bytes Hn cps Hrun.
  destruct bytes as [|b rest].
  - injection Hrun as <-. by split.
  - destruct (utf8_first_code_point _ _ _ Hrun)
      as (c & rest' & cps' & Hc & Hbytes & -> & Hrest & Hlen).
    destruct (IH (List.length rest')) with (bytes := rest') (cps := cps')
      as [Hall Henc]; [cbn in Hn; lia|reflexivity|exact Hrest|].
    split; [by constructor|].
    unfold Utf8.encode in *. cbn [flat_map]. by rewrite Henc.
Qed.

(** X18. For a name with a byte above 127, [smartDecodeFileName] takes the
    UTF-8 reading exactly when the bytes are well-formed UTF-8: then the
    result is the sequence of scalar values whose encoding the bytes are
    (less a leading byte order mark), so that nothing of the name is lost;
    otherwise no sequence of scalar values encodes to the bytes, and the
    result comes from the legacy encodings or from latin1. *)
Theorem utf8_reading_exactly_when_well_formed :
  forall legacy bytes,
    isAscii bytes = false ->
    let TD := TextDecoder_decode legacy in
    (exists cps,
        Forall Utf8.is_scalar cps /\ Utf8.encode cps = bytes
        /\ smartDecodeFileName TD bytes
           = Normal (to_jsstring (strip_bom cps)))
    \/ ((forall cps, Forall Utf8.is_scalar cps -> Utf8.encode cps <> bytes)
        /\ smartDecodeFileName TD bytes
           = match tryEncodings TD encodings bytes with
             | Some decoded => Normal decoded
             | None => TD "latin1"%string false bytes
             end).
Proof.
  intros legacy bytes Hhigh TD. unfold smartDecodeFileName. rewrite Hhigh.
  subst TD. rewrite TextDecoder_utf8. unfold utf8_decode.
  destruct (utf8_run true utf8_initial bytes) as [cps|e] eqn:Hrun.
  - left. exists cps.
    destruct (utf8_run_strict_inv _ _ Hrun) as [Hall Henc].
    by repeat split.
  - right. split; [|reflexivity].
    intros cps Hall Henc. rewrite <- Henc in Hrun.
    by rewrite utf8_run_encode in Hrun.
Qed.

Lemma utf8_reading_exactly_when_well_formed_witness :
  (exists cps,
      Forall Utf8.is_scalar cps
      /\ Utf8.encode cps = [Byte.xc0; Byte.xaf]
      /\ smartDecodeFileName (TextDecoder_decode Fixtures.no_legacy)
           [Byte.xc0; Byte.xaf]
         = Normal (to_jsstring (strip_bom cps)))
  \/ ((forall cps,
          Forall Utf8.is_scalar cps ->
          Utf8.encode cps <> [Byte.xc0; Byte.xaf])
      /\ smartDecodeFileName (TextDecoder_decode Fixtures.no_legacy)
           [Byte.xc0; Byte.xaf]
         = match
             tryEncodings (TextDecoder_decode Fixtures.no_legacy) encodings
               [Byte.xc0; Byte.xaf]
           with
           | Some decoded => Normal decoded
           | None =>
               TextDecoder_decode Fixtures.no_legacy "latin1"%string false
                 [Byte.xc0; Byte.xaf]
           end).
Proof.
  apply (utf8_reading_exactly_when_well_formed Fixtures.no_legacy
           [Byte.xc0; Byte.xaf]).
  reflexivity.
Defined.
